(** * Fixed-point decimals of [types/decimal.go]

    A shallow embedding of the [Dec] type (a nullable pointer to an
    arbitrary-precision integer holding the value scaled by 10^18) and of
    its constructors, arithmetic, chopping primitives, root approximation,
    formatting and serialisation, followed by the properties that the
    specification states about them. *)

From Stdlib Require Import ZArith NArith PArith Lia Bool List.
From Stdlib Require Import Ascii String Decimal DecimalString DecimalN DecimalPos.
Import ListNotations.

Local Open Scope Z_scope.

(** ** math/big integers

    [*big.Int] values are unbounded integers, modelled by [Z].  [Quo] and
    [Rem] truncate toward zero ([Z.quot], [Z.rem]); [BitLen] is the length
    of the absolute value in bits, 0 for 0. *)

Module big.

Definition Sign (x : Z) : Z := Z.sgn x.

Definition BitLen (x : Z) : Z := Z.of_N (N.size (Z.abs_N x)).

(** [Cmp] answers -1, 0 or +1. *)
Definition Cmp (x y : Z) : Z :=
  match x ?= y with Lt => -1 | Eq => 0 | Gt => 1 end.

(** [QuoRem] for a non-zero divisor. *)
Definition QuoRem (x y : Z) : Z * Z := (Z.quot x y, Z.rem x y).

(** [Bit(0)] of a non-negative integer. *)
Definition Bit0 (x : Z) : Z := if Z.testbit x 0 then 1 else 0.

End big.

(** ** Constants *)

Definition Precision : Z := 18.
Definition DecimalPrecisionBits : Z := 60.
Definition decimalTruncateBits : Z := DecimalPrecisionBits - 1.
Definition maxApproxRootIterations : nat := 100.

Definition precisionReuse : Z := 10 ^ Precision.
Definition fivePrecision : Z := Z.quot precisionReuse 2.
Definition zeroInt : Z := 0.
Definition oneInt : Z := 1.
Definition tenInt : Z := 10.

(** ** Panics and results

    A panic aborts the caller unless it is recovered.  An immutable
    operation works on a clone, so all that is seen of it is an [outcome];
    a mutating method leaves its receiver's backing integer in some state
    even when it panics, which [mut] records. *)

Inductive panic : Type :=
| IntOverflow          (* panic("Int overflow") *)
| DivisionByZero       (* panic("division by zero") of big.Int.Quo *)
| NilDereference       (* run-time error: nil *big.Int *)
| TooMuchPrecision     (* panic of precisionMultiplier *)
| NotSortable.         (* panic("dec must be within bounds") *)

Inductive outcome (A : Type) : Type :=
| Return (a : A)
| Panics (p : panic).
Arguments Return {A} a.
Arguments Panics {A} p.

Record mut : Type := mkMut { store : Z; panicked : option panic }.

Definition immut (m : mut) : outcome Z :=
  match panicked m with
  | None => Return (store m)
  | Some p => Panics p
  end.

(** ** Chopping primitives *)

(** The body of [chopPrecisionAndRound] for an argument that is not
    negative. *)
Definition chopPrecisionAndRound_nonneg (d : Z) : Z :=
  let '(quo, rem) := big.QuoRem d precisionReuse in
  if big.Sign rem =? 0 then quo
  else
    match big.Cmp rem fivePrecision with
    | -1 => quo
    | 1 => quo + oneInt
    | _ => if big.Bit0 quo =? 0 then quo else quo + oneInt
    end.

(** A negative argument is negated, chopped by the recursive call (which
    then takes the other branch, its argument being positive) and negated
    back. *)
Definition chopPrecisionAndRound (d : Z) : Z :=
  if big.Sign d =? -1
  then - chopPrecisionAndRound_nonneg (- d)
  else chopPrecisionAndRound_nonneg d.

Definition chopPrecisionAndTruncate (d : Z) : Z := Z.quot d precisionReuse.

Definition chopPrecisionAndRoundUp (d : Z) : Z :=
  if big.Sign d =? -1
  then - chopPrecisionAndTruncate (- d)
  else
    let '(quo, rem) := big.QuoRem d precisionReuse in
    if big.Sign rem =? 0 then quo else quo + oneInt.

Definition chopPrecisionAndRoundNonMutative (d : Z) : Z :=
  chopPrecisionAndRound d.

Definition chopPrecisionAndTruncateNonMutative (d : Z) : Z :=
  chopPrecisionAndTruncate d.

(** ** Arithmetic on present decimals

    The operands are the backing integers of present values.  The bound
    [maxBitLen] of the companion integer type is declared outside this
    file; it is a parameter here. *)

Section Arithmetic.

Variable maxBitLen : Z.

Definition maxDecBitLen : Z := maxBitLen + decimalTruncateBits.

(** The test every checked operation ends with. *)
Definition overflows (x : Z) : bool := big.BitLen x >? maxDecBitLen.

Definition checked (x : Z) : mut :=
  mkMut x (if overflows x then Some IntOverflow else None).

Definition ZeroDec : Z := zeroInt.
Definition OneDec : Z := precisionReuse.
Definition SmallestDec : Z := oneInt.

(** [precisionMultiplier 0] does not panic. *)
Definition NewDecFromBigInt (i : Z) : Z := i * tenInt ^ (Precision - 0).

Definition IsZero (d : Z) : bool := big.Sign d =? 0.
Definition IsNegative (d : Z) : bool := big.Sign d =? -1.
Definition IsPositive (d : Z) : bool := big.Sign d =? 1.
Definition Equal (d d2 : Z) : bool := big.Cmp d d2 =? 0.
Definition GT (d d2 : Z) : bool := big.Cmp d d2 >? 0.
Definition LT (d d2 : Z) : bool := big.Cmp d d2 <? 0.
Definition LTE (d d2 : Z) : bool := big.Cmp d d2 <=? 0.
Definition Neg (d : Z) : Z := - d.
Definition Abs (d : Z) : Z := Z.abs d.
Definition Clone (d : Z) : Z := d.

Definition ImmutOp {B : Type} (op : Z -> B -> mut) (d : Z) (d2 : B)
  : outcome Z := immut (op (Clone d) d2).

Definition SetInt64 (i : Z) : Z := i * precisionReuse.

Definition AddMut (d d2 : Z) : mut := checked (d + d2).
Definition Add (d d2 : Z) : outcome Z := ImmutOp AddMut d d2.

Definition SubMut (d d2 : Z) : mut := checked (d - d2).
Definition Sub (d d2 : Z) : outcome Z := ImmutOp SubMut d d2.

Definition MulMut (d d2 : Z) : mut :=
  checked (chopPrecisionAndRound (d * d2)).
Definition Mul (d d2 : Z) : outcome Z := ImmutOp MulMut d d2.

Definition MulTruncateMut (d d2 : Z) : mut :=
  checked (chopPrecisionAndTruncate (d * d2)).
Definition MulTruncate (d d2 : Z) : outcome Z := ImmutOp MulTruncateMut d d2.

Definition MulIntMut (d i : Z) : mut := checked (d * i).
Definition MulInt (d i : Z) : outcome Z := ImmutOp MulIntMut d i.

Definition MulInt64Mut (d i : Z) : mut := checked (d * i).
Definition MulInt64 (d i : Z) : outcome Z := ImmutOp MulInt64Mut d i.

(** The quotients first scale the receiver by 10^18 twice; the division
    then panics on a zero divisor, the receiver staying scaled. *)
Definition QuoMut (d d2 : Z) : mut :=
  let d := d * precisionReuse in
  let d := d * precisionReuse in
  if d2 =? 0 then mkMut d (Some DivisionByZero)
  else checked (chopPrecisionAndRound (Z.quot d d2)).
Definition Quo (d d2 : Z) : outcome Z := ImmutOp QuoMut d d2.

Definition QuoTruncateMut (d d2 : Z) : mut :=
  let d := d * precisionReuse in
  let d := d * precisionReuse in
  if d2 =? 0 then mkMut d (Some DivisionByZero)
  else checked (chopPrecisionAndTruncate (Z.quot d d2)).
Definition QuoTruncate (d d2 : Z) : outcome Z := ImmutOp QuoTruncateMut d d2.

Definition QuoRoundupMut (d d2 : Z) : mut :=
  let d := d * precisionReuse in
  let d := d * precisionReuse in
  if d2 =? 0 then mkMut d (Some DivisionByZero)
  else checked (chopPrecisionAndRoundUp (Z.quot d d2)).
Definition QuoRoundUp (d d2 : Z) : outcome Z := ImmutOp QuoRoundupMut d d2.

Definition QuoInt64Mut (d i : Z) : mut :=
  if i =? 0 then mkMut d (Some DivisionByZero)
  else mkMut (Z.quot d i) None.

Definition TruncateDec (d : Z) : Z :=
  NewDecFromBigInt (chopPrecisionAndTruncateNonMutative d).

Definition Ceil (d : Z) : Z :=
  let '(quo, rem) := big.QuoRem d precisionReuse in
  if big.Cmp rem zeroInt =? 0 then NewDecFromBigInt quo
  else if big.Sign rem =? -1 then NewDecFromBigInt quo
  else NewDecFromBigInt (quo + oneInt).

(** *** Powers and roots

    [Power] runs [PowerMut] on a fresh copy of its receiver, so a panic
    leaves nothing of that copy to be seen.  The loop of [PowerMut]
    halves [i] while [i > 1]; on the binary numeral of [i] that is one
    step per digit below the leading one, an odd digit first
    multiplying [tmp] by [d]. *)

Definition andThen {A B : Type} (o : outcome A) (k : A -> outcome B)
  : outcome B :=
  match o with
  | Return a => k a
  | Panics p => Panics p
  end.

Fixpoint powerLoop (i : positive) (d tmp : Z) : outcome (Z * Z) :=
  match i with
  | xH => Return (d, tmp)
  | xO i' =>
      andThen (immut (MulMut d d)) (fun d' => powerLoop i' d' tmp)
  | xI i' =>
      andThen (immut (MulMut tmp d)) (fun tmp' =>
      andThen (immut (MulMut d d)) (fun d' => powerLoop i' d' tmp'))
  end.

Definition Power (d : Z) (power : N) : outcome Z :=
  match power with
  | N0 => Return (SetInt64 1)
  | Npos i =>
      andThen (powerLoop i (Clone d) OneDec) (fun '(d', tmp) =>
      immut (MulMut d' tmp))
  end.

(** Conversions of the unsigned 64-bit root. *)
Definition uint64_pred (root : N) : N :=
  ((root + 2 ^ 64 - 1) mod 2 ^ 64)%N.

Definition int64_of_uint64 (root : N) : Z :=
  if (root <? 2 ^ 63)%N then Z.of_N root else Z.of_N root - 2 ^ 64.

(** Errors that [ApproxRoot] reports: the deferred function turns a
    recovered panic into an error, keeping a run-time error as it is and
    replacing any other panic value by "out of bounds". *)
Inductive rootError : Type :=
| ErrOutOfBounds
| ErrRuntime.

Definition recovered (p : panic) : rootError :=
  match p with
  | NilDereference => ErrRuntime
  | _ => ErrOutOfBounds
  end.

(** One turn of the Newton loop on the named result [guess] and on
    [delta]: the two backing integers afterwards, and the panic that
    interrupted the turn, if any. *)
Definition approxRootStep (d : Z) (root : N) (guess delta : Z)
  : Z * Z * option panic :=
  match Power guess (uint64_pred root) with
  | Panics p => (guess, delta, Some p)
  | Return prev =>
      let prev := if IsZero prev then SmallestDec else prev in
      let m1 := QuoMut d prev in               (* delta.Set(d).QuoMut(prev) *)
      match panicked m1 with
      | Some p => (guess, store m1, Some p)
      | None =>
          let m2 := SubMut (store m1) guess in
          match panicked m2 with
          | Some p => (guess, store m2, Some p)
          | None =>
              let m3 := QuoInt64Mut (store m2) (int64_of_uint64 root) in
              match panicked m3 with
              | Some p => (guess, store m3, Some p)
              | None =>
                  let m4 := AddMut guess (store m3) in
                  (store m4, store m3, panicked m4)
              end
          end
      end
  end.

(** The loop, [budget] being [maxApproxRootIterations - iter]. *)
Fixpoint approxRootLoop (budget : nat) (d : Z) (root : N) (guess delta : Z)
  : Z * option panic :=
  if GT (Abs delta) SmallestDec then
    match budget with
    | O => (guess, None)
    | S budget' =>
        match approxRootStep d root guess delta with
        | (guess', _, Some p) => (guess', Some p)
        | (guess', delta', None) => approxRootLoop budget' d root guess' delta'
        end
    end
  else (guess, None).

(** [ApproxRoot] on a receiver that is not negative. *)
Definition approxRootNonNeg (d : Z) (root : N) : Z * option rootError :=
  if (root =? 1)%N || IsZero d || Equal d OneDec then (d, None)
  else if (root =? 0)%N then (OneDec, None)
  else
    let '(guess, p) :=
      approxRootLoop maxApproxRootIterations d root OneDec OneDec in
    (guess, option_map recovered p).

(** A negative receiver is negated and handed to the recursive call,
    which takes the other branch; the result is negated in place and
    returned with the error of that call. *)
Definition ApproxRoot (d : Z) (root : N) : Z * option rootError :=
  if IsNegative d then
    let '(absRoot, err) := approxRootNonNeg (Neg d) root in
    (Neg absRoot, err)
  else approxRootNonNeg d root.

Definition ApproxSqrt (d : Z) : Z * option rootError := ApproxRoot d 2.

End Arithmetic.

(** ** Text

    Go strings and byte slices are [string]s.  The decimal text of a
    [*big.Int] ([MarshalText], [String]) is the numeral of the standard
    library; a nil pointer prints as "<nil>". *)

Local Open Scope string_scope.

Module bigtext.

Definition MarshalText (x : Z) : string :=
  NilEmpty.string_of_int (Z.to_int x).

Definition digit (c : ascii) : option Z :=
  let n := Z.of_N (N_of_ascii c) in
  if (48 <=? n)%Z && (n <=? 57)%Z then Some (n - 48)%Z else None.

(** The digits of a base-10 numeral, most significant first; any other
    byte stops the scan with a failure. *)
Fixpoint scan (s : string) (acc : Z) : option Z :=
  match s with
  | EmptyString => Some acc
  | String c s' =>
      match digit c with
      | Some v => scan s' (acc * 10 + v)%Z
      | None => None
      end
  end.

Definition scanDigits (s : string) : option Z :=
  match s with
  | EmptyString => None          (* a number has at least one digit *)
  | _ => scan s 0%Z
  end.

(** [SetString(s, 10)]: an optional sign, then digits up to the end. *)
Definition SetString (s : string) : option Z :=
  match s with
  | EmptyString => None
  | String c s' =>
      if Ascii.eqb c "-" then option_map Z.opp (scanDigits s')
      else if Ascii.eqb c "+" then scanDigits s'
      else scanDigits s
  end.

(** [String] of a possibly nil pointer. *)
Definition String (x : option Z) : string :=
  match x with
  | None => "<nil>"
  | Some x => MarshalText x
  end.

End bigtext.

(** [strings.Split(s, ".")]. *)
Fixpoint Split (s : string) : list string :=
  match s with
  | EmptyString => [EmptyString]
  | String c s' =>
      if Ascii.eqb c "." then EmptyString :: Split s'
      else
        match Split s' with
        | h :: t => String c h :: t
        | [] => [String c EmptyString]
        end
  end.

Fixpoint zeros (n : nat) : string :=
  match n with
  | O => EmptyString
  | S n' => String "0" (zeros n')
  end.

(** [fmt.Sprintf("%0<width>s", s)]: [s] padded with zeros on the left up
    to [width] bytes. *)
Definition sprintf0 (width : nat) (s : string) : string :=
  zeros (width - length s) ++ s.

(** Byte-wise lexicographic order ([bytes.Compare(a, b) < 0]). *)
Definition bytesLess (a b : string) : bool := String.ltb a b.

(** A [Dec] is a pointer to a big integer, nil for the absent value. *)
Definition Dec : Type := option Z.

Inductive strError : Type :=
| ErrEmptyDecimalStr
| ErrInvalidDecimalLength
| ErrInvalidDecimalStr
| ErrInvalidPrecision (got : nat)
| ErrFailedToSet (combinedStr : string)
| ErrOutOfRange (bitLen : Z).

Inductive parsed : Type :=
| Parsed (d : Z)
| Failed (e : strError).

Section Text.

Variable maxBitLen : Z.

Definition NewDecFromStr (str : string) : parsed :=
  if (length str =? 0)%nat then Failed ErrEmptyDecimalStr
  else
    let '(neg, str) :=
      match str with
      | String "-"%char rest => (true, rest)
      | _ => (false, str)
      end in
    if (length str =? 0)%nat then Failed ErrEmptyDecimalStr
    else
      let strs := Split str in
      let combinedStr := hd EmptyString strs in
      let step :=
        if (List.length strs =? 2)%nat then
          let lenDecs := length (nth 1 strs EmptyString) in
          if (lenDecs =? 0)%nat || (length combinedStr =? 0)%nat
          then inl ErrInvalidDecimalLength
          else inr (lenDecs, combinedStr ++ nth 1 strs EmptyString)
        else if (2 <? List.length strs)%nat then inl ErrInvalidDecimalStr
        else inr (O, combinedStr) in
      match step with
      | inl e => Failed e
      | inr (lenDecs, combinedStr) =>
          if (Z.of_nat lenDecs >? Precision)%Z
          then Failed (ErrInvalidPrecision lenDecs)
          else
            let zerosToAdd := Z.to_nat (Precision - Z.of_nat lenDecs) in
            let combinedStr := combinedStr ++ sprintf0 zerosToAdd "" in
            match bigtext.SetString combinedStr with
            | None => Failed (ErrFailedToSet combinedStr)
            | Some combined =>
                if (big.BitLen combined >? maxDecBitLen maxBitLen)%Z
                then Failed (ErrOutOfRange (big.BitLen combined))
                else Parsed (if neg then (- combined)%Z else combined)
            end
      end.

End Text.

(** ** Formatting *)

Module decimal.

(** [Dec.String]: the absolute value's digits with the point 18 places
    from the right, zeros filling up to "0." when there are at most 18
    digits, and the sign put back in front. *)
Definition String (d : Dec) : string :=
  match d with
  | None => bigtext.String None
  | Some i =>
      let isNeg := IsNegative i in
      let i := if isNeg then Neg i else i in
      let bzInt := bigtext.MarshalText i in
      let inputSize := length bzInt in
      let bzStr :=
        if (Z.of_nat inputSize <=? Precision)%Z then
          "0." ++ zeros (Z.to_nat Precision - inputSize) ++ bzInt
        else
          let decPointPlace := (inputSize - Z.to_nat Precision)%nat in
          substring 0 decPointPlace bzInt ++ "." ++
          substring decPointPlace (inputSize - decPointPlace) bzInt in
      if isNeg then "-" ++ bzStr else bzStr
  end.

End decimal.

(** ** Sortable bytes *)

Section Sortable.

Variable maxBitLen : Z.

(** Set once at start-up; a panic there would end the program. *)
Definition MaxSortableDec : outcome Z := Quo maxBitLen OneDec SmallestDec.

(** [max] is the value of the global [MaxSortableDec]. *)
Definition ValidSortableDec (max dec : Z) : bool := LTE (Abs dec) max.

Definition SortableDecBytes (dec : Z) : outcome string :=
  andThen MaxSortableDec (fun max =>
  if negb (ValidSortableDec max dec) then Panics NotSortable
  else if Equal dec max then Return "max"
  else if Equal dec (Neg max) then Return "--"
  else if IsNegative dec then
    Return ("-" ++ sprintf0 (Z.to_nat (Precision * 2 + 1))
                     (decimal.String (Some (Abs dec))))
  else
    Return (sprintf0 (Z.to_nat (Precision * 2 + 1))
              (decimal.String (Some dec)))).

End Sortable.

(** ** Wire text

    [Unmarshal] has a pointer receiver [d *Dec].  What a call leaves
    behind is the method's own pointer variable (nil or still the
    caller's pointer), the [Dec] which the caller's pointer refers to,
    and the returned error.  [big.Int.UnmarshalText] belongs to math/big:
    from the current backing integer and the text it gives the backing
    integer afterwards and whether the text was accepted. *)

Inductive wireError : Type :=
| ErrUnmarshalText
| ErrWireOutOfRange (bitLen : Z).

Record unmarshalled : Type := mkUnmarshalled {
  local_d_nil : bool;
  receiver : Dec;
  err : option wireError
}.

Section Wire.

Variable maxBitLen : Z.
Variable UnmarshalText : Z -> string -> Z * bool.

Definition Unmarshal (receiver : Dec) (data : string) : unmarshalled :=
  if (length data =? 0)%nat then
    (* d = nil: only the local pointer changes *)
    mkUnmarshalled true receiver None
  else
    let i := match receiver with None => 0%Z | Some i => i end in
    let '(i, ok) := UnmarshalText i data in
    if negb ok then mkUnmarshalled false (Some i) (Some ErrUnmarshalText)
    else if (big.BitLen i >? maxDecBitLen maxBitLen)%Z
    then mkUnmarshalled false (Some i)
           (Some (ErrWireOutOfRange (big.BitLen i)))
    else mkUnmarshalled false (Some i) None.

Definition UnmarshalAmino (receiver : Dec) (bz : string) : unmarshalled :=
  Unmarshal receiver bz.

End Wire.

(** [ApproxRoot] on a receiver that may be absent: the first method call
    on a nil backing integer is a run-time panic, recovered while the
    named result still is the zero [Dec]. *)
Definition ApproxRootDec (maxBitLen : Z) (d : Dec) (root : N)
  : Dec * option rootError :=
  match d with
  | None => (None, Some (recovered NilDereference))
  | Some i => let '(guess, e) := ApproxRoot maxBitLen i root in (Some guess, e)
  end.

(** The receivers and roots for which [ApproxRoot] runs the Newton loop:
    the root is neither 0 nor 1, and the magnitude neither zero nor
    one. *)
Definition entersLoop (a : Z) (root : N) : bool :=
  negb ((root =? 1)%N || IsZero a || Equal a OneDec) && negb (root =? 0)%N.

(** The named result [guess] and [delta] after [n] turns of the loop
    from a given state, provided that each of these turns was entered
    (the magnitude of [delta] exceeding the smallest unit) and ended
    without a panic. *)
Fixpoint turnsFrom (maxBitLen : Z) (n : nat) (d : Z) (root : N)
  (guess delta : Z) : option (Z * Z) :=
  match n with
  | O => Some (guess, delta)
  | S n' =>
      if GT (Abs delta) SmallestDec then
        match approxRootStep maxBitLen d root guess delta with
        | (guess', delta', None) => turnsFrom maxBitLen n' d root guess' delta'
        | (_, _, Some _) => None
        end
      else None
  end.

(** ** The rounding policies as the specification words them

    For a scaled integer [m], [|m| = q * 10^18 + r] with
    [0 <= r < 10^18]. *)

Local Open Scope Z_scope.

Definition oneUnit : Z := 10 ^ 18.
Definition halfUnit : Z := 5 * 10 ^ 17.

Definition quotientOf (m : Z) : Z := Z.abs m / oneUnit.
Definition remainderOf (m : Z) : Z := Z.abs m mod oneUnit.

Definition roundHalfEven (m : Z) : Z :=
  let q := quotientOf m in
  let r := remainderOf m in
  Z.sgn m *
  (if r =? 0 then q
   else if r <? halfUnit then q
   else if r >? halfUnit then q + 1
   else if Z.even q then q else q + 1).

Definition roundUpAwayFromZero (m : Z) : Z :=
  let q := quotientOf m in
  let r := remainderOf m in
  Z.sgn m * (if r =? 0 then q else q + 1).

Definition truncateTowardZero (m : Z) : Z := Z.sgn m * quotientOf m.

(** ** Decimal text as the specification words it *)

Local Open Scope string_scope.

Definition isDigit (c : ascii) : bool :=
  match bigtext.digit c with
  | Some _ => true
  | None => false
  end.

Definition digitValue (c : ascii) : Z :=
  match bigtext.digit c with
  | Some v => v
  | None => 0
  end.

Fixpoint allDigits (s : string) : bool :=
  match s with
  | EmptyString => true
  | String c s' => isDigit c && allDigits s'
  end.

(** The number a run of digits denotes, each digit weighted by its
    position. *)
Fixpoint numeral (s : string) : Z :=
  match s with
  | EmptyString => 0
  | String c s' => digitValue c * 10 ^ Z.of_nat (length s') + numeral s'
  end.

Fixpoint countDots (s : string) : nat :=
  match s with
  | EmptyString => O
  | String c s' => if Ascii.eqb c "." then S (countDots s') else countDots s'
  end.

Definition noDot (s : string) : bool := (countDots s =? 0)%nat.

Definition startsWithMinus (s : string) : bool :=
  match s with
  | String "-"%char _ => true
  | _ => false
  end.

(** The text handed to the constructor: the body, after a "-" if the
    sign was stripped. *)
Definition signed (neg : bool) (body : string) : string :=
  if neg then "-" ++ body else body.

(** The last steps of the constructor: the combined digits are read as a
    base-10 magnitude, which must be within the bound, and the sign is
    put back. *)
Definition finish (maxBitLen : Z) (neg : bool) (combinedStr : string)
  : parsed :=
  match bigtext.SetString combinedStr with
  | None => Failed (ErrFailedToSet combinedStr)
  | Some m =>
      if big.BitLen m >? maxDecBitLen maxBitLen
      then Failed (ErrOutOfRange (big.BitLen m))
      else Parsed (if neg then - m else m)
  end.

(** Integer digits without their leading zeros, the last digit
    staying. *)
Fixpoint stripZeros (s : string) : string :=
  match s with
  | EmptyString => EmptyString
  | String c s' =>
      if Ascii.eqb c "0" && negb (length s' =? 0)%nat then stripZeros s'
      else s
  end.

(** A decimal text: the sign, the integer digits and, when there are
    fractional digits, the point and these. *)
Definition decimalText (neg : bool) (ip fp : string) : string :=
  signed neg (if (length fp =? 0)%nat then ip else ip ++ "." ++ fp).

(** Its canonical rendering with exactly 18 fractional digits: the sign
    unless the number is zero, the integer digits without leading zeros,
    the point, and the fractional digits filled up with zeros. *)
Definition canonical18 (neg : bool) (ip fp : string) : string :=
  signed (neg && negb (numeral (ip ++ fp) =? 0)%Z)
         (stripZeros ip ++ "." ++ fp ++ zeros (18 - length fp)).

Local Open Scope Z_scope.

(** The bound of the sortable encoding, [MaxSortable] as a scaled
    integer: one unit divided by the smallest unit. *)
Definition maxSortable : Z := oneUnit * oneUnit.

(** ** Constructors with a precision

    What they do: give a value, or panic with "too much precision" or
    with the run-time error of an index outside the table of
    multipliers. *)

Inductive precisionResult : Type :=
| Got (x : Z)
| PanicTooMuchPrecision
| PanicIndexOutOfRange.

(** [None] is the panic "too much precision". *)
Definition calcPrecisionMultiplier (prec : Z) : option Z :=
  if prec >? Precision then None
  else
    let zerosToAdd := Precision - prec in
    Some (tenInt ^ zerosToAdd).

(** The table filled at start-up, for [i] from 0 to [Precision]. *)
Definition precisionMultipliers : list Z :=
  List.map (fun i => match calcPrecisionMultiplier (Z.of_nat i) with
                     | Some m => m
                     | None => 0
                     end)
           (List.seq 0 (Z.to_nat Precision + 1)).

Definition precisionMultiplier (prec : Z) : precisionResult :=
  if prec >? Precision then PanicTooMuchPrecision
  else if prec <? 0 then PanicIndexOutOfRange
  else
    match List.nth_error precisionMultipliers (Z.to_nat prec) with
    | Some m => Got m
    | None => PanicIndexOutOfRange
    end.

Definition NewDecFromBigIntWithPrec (i prec : Z) : precisionResult :=
  match precisionMultiplier prec with
  | Got m => Got (i * m)
  | p => p
  end.

(** [i] is an int64. *)
Definition NewDecWithPrec (i prec : Z) : precisionResult :=
  match precisionMultiplier prec with
  | Got m => Got (i * m)
  | p => p
  end.

Definition NewDec (i : Z) : precisionResult := NewDecWithPrec i 0.

(** ** Further comparisons and helpers *)

Definition GTE (d d2 : Z) : bool := big.Cmp d d2 >=? 0.

Definition IsInteger (d : Z) : bool :=
  big.Sign (Z.rem d precisionReuse) =? 0.

Definition MinDec (d1 d2 : Z) : Z := if LT d1 d2 then d1 else d2.
Definition MaxDec (d1 d2 : Z) : Z := if LT d1 d2 then d2 else d1.

(** The loop of [DecsEqual] over [d1s], at index [i] of [d2s]; the
    lengths being equal, [d2s[i]] exists. *)
Fixpoint decsEqualLoop (i : nat) (d1s d2s : list Z) : bool :=
  match d1s with
  | [] => true
  | d1 :: rest =>
      if negb (Equal d1 (List.nth i d2s 0)) then false
      else decsEqualLoop (S i) rest d2s
  end.

Definition DecsEqual (d1s d2s : list Z) : bool :=
  if negb (List.length d1s =? List.length d2s)%nat then false
  else decsEqualLoop 0 d1s d2s.

(** ** Conversions to int64; [None] is the panic "Int64() out of
    bound". *)

Definition IsInt64 (x : Z) : bool := (- 2 ^ 63 <=? x) && (x <=? 2 ^ 63 - 1).

Definition RoundInt64 (d : Z) : option Z :=
  let chopped := chopPrecisionAndRoundNonMutative d in
  if negb (IsInt64 chopped) then None else Some chopped.

Definition TruncateInt64 (d : Z) : option Z :=
  let chopped := chopPrecisionAndTruncateNonMutative d in
  if negb (IsInt64 chopped) then None else Some chopped.

(** ** Test helpers: the verdict and the two texts handed to the
    assertion. *)

Definition DecEq (exp got : Z) : bool * string * string :=
  (Equal exp got, decimal.String (Some exp), decimal.String (Some got)).

Definition DecApproxEq (maxBitLen d1 d2 tol : Z)
  : outcome (bool * string * string) :=
  andThen (Sub maxBitLen d1 d2) (fun s =>
  let diff := Abs s in
  Return (LTE diff tol, decimal.String (Some tol), decimal.String (Some diff))).

(** ** Wire text, marshalling *)

Local Open Scope string_scope.

(** [Marshal] has a value receiver: a nil backing integer is replaced in
    its own copy only. *)
Definition Marshal (d : Dec) : string :=
  let i := match d with None => 0%Z | Some i => i end in
  bigtext.MarshalText i.

(** [copy(dst, src)]: the bytes of [src] over the front of [dst], as
    many as fit, and their number. *)
Definition copy (dst src : string) : string * nat :=
  let n := Nat.min (length dst) (length src) in
  (substring 0 n src ++ substring n (length dst - n) dst, n).

(** [MarshalTo] has a pointer receiver: what it leaves is the receiver,
    the buffer and the returned count. *)
Record marshalledTo : Type := mkMarshalledTo {
  receiverAfter : Dec;
  dataAfter : string;
  written : nat
}.

Definition MarshalTo (d : Dec) (data : string) : marshalledTo :=
  let i := match d with None => 0%Z | Some i => i end in
  if (big.Cmp i zeroInt =? 0)%Z then
    mkMarshalledTo (Some i) (fst (copy data "0")) 1
  else
    let bz := Marshal (Some i) in
    mkMarshalledTo (Some i) (fst (copy data bz)) (length bz).

Definition Size (d : Dec) : nat := length (Marshal d).

Definition MarshalAmino (d : Dec) : string := Marshal d.

(** A text parser that reads what [MarshalText] writes, to instantiate
    the parameter of [Unmarshal]. *)
Definition decimalUnmarshalText (i : Z) (text : string) : Z * bool :=
  match bigtext.SetString text with
  | Some z => (z, true)
  | None => (i, false)
  end.

(** ** JSON

    [json.Marshal] of a string and [json.Unmarshal] into a string belong
    to encoding/json and are parameters; [None] is a decoding error. *)

Inductive jsonError : Type :=
| ErrJSONDecode
| ErrJSONDecimal (e : strError).

Section JSON.

Variable maxBitLen : Z.
Variable jsonMarshal : string -> string.
Variable jsonUnmarshal : string -> option string.



(** The receiver afterwards and the error. *)
Definition UnmarshalJSON (receiver : Dec) (bz : string)
  : Dec * option jsonError :=
  let receiver :=
    match receiver with
    | None => Some 0%Z
    | Some i => Some i
    end in
  match jsonUnmarshal bz with
  | None => (receiver, Some ErrJSONDecode)
  | Some text =>
      match NewDecFromStr maxBitLen text with
      | Failed e => (receiver, Some (ErrJSONDecimal e))
      | Parsed newDec => (Some newDec, None)
      end
  end.

Definition MarshalYAML (d : Dec) : string := decimal.String d.

End JSON.


Fixpoint dropLast (s : string) : string :=
  match s with
  | EmptyString => EmptyString
  | String c EmptyString => EmptyString
  | String c s' => String c (dropLast s')
  end.

Definition plainUnquote (bz : string) : option string :=
  match bz with
  | String c rest =>
      if Ascii.eqb c (ascii_of_nat 34) && negb (length rest =? 0)%nat
      then Some (dropLast rest) else None
  | EmptyString => None
  end.

Local Open Scope Z_scope.

(** The invariant of a present value. *)
Definition withinBound (maxBitLen x : Z) : Prop :=
  big.BitLen x <= maxDecBitLen maxBitLen.

(** * Properties *)

(** ** Bit lengths *)

Lemma precisionReuse_eq : precisionReuse = 1000000000000000000.
Proof. reflexivity. Qed.

Lemma fivePrecision_eq : fivePrecision = 500000000000000000.
Proof. reflexivity. Qed.

Lemma BitLen_0 : big.BitLen 0 = 0.
Proof. reflexivity. Qed.

Lemma BitLen_log2 (x : Z) : x <> 0 -> big.BitLen x = Z.log2 (Z.abs x) + 1.
Proof.
  intros Hx. unfold big.BitLen.
  destruct x as [|p|p]; [congruence| | ];
    destruct p; simpl; rewrite ?Pos2Z.inj_succ; lia.
Qed.

Lemma BitLen_nonneg (x : Z) : 0 <= big.BitLen x.
Proof. unfold big.BitLen. lia. Qed.

Lemma BitLen_abs (x : Z) : big.BitLen (Z.abs x) = big.BitLen x.
Proof. unfold big.BitLen. f_equal. f_equal. lia. Qed.

Lemma BitLen_opp (x : Z) : big.BitLen (- x) = big.BitLen x.
Proof. unfold big.BitLen. f_equal. f_equal. lia. Qed.

(** A bit length is within [n] exactly when the magnitude is below
    [2^n]. *)
Lemma BitLen_le_iff (x n : Z) :
  0 <= n -> (big.BitLen x <= n <-> Z.abs x < 2 ^ n).
Proof.
  intros Hn. destruct (Z.eq_dec x 0) as [->|Hx].
  - rewrite BitLen_0. simpl. split; intros _; [apply Z.pow_pos_nonneg|]; lia.
  - rewrite BitLen_log2 by exact Hx.
    assert (0 < Z.abs x) by lia.
    rewrite (Z.log2_lt_pow2 (Z.abs x) n) by assumption. lia.
Qed.

Lemma BitLen_mono (x y : Z) : Z.abs x <= Z.abs y -> big.BitLen x <= big.BitLen y.
Proof.
  intros H. pose proof (BitLen_nonneg y) as Hy.
  apply (BitLen_le_iff x (big.BitLen y) Hy).
  assert (Z.abs y < 2 ^ big.BitLen y) by (apply BitLen_le_iff; lia).
  lia.
Qed.

(** ** Chopping *)

Lemma oneUnit_eq : oneUnit = precisionReuse.
Proof. reflexivity. Qed.

Lemma halfUnit_eq : halfUnit = fivePrecision.
Proof. reflexivity. Qed.

Lemma Sign_neg_iff (d : Z) : (big.Sign d =? -1) = (d <? 0).
Proof. unfold big.Sign. destruct d; reflexivity. Qed.

Lemma Bit0_even (q : Z) : (big.Bit0 q =? 0) = Z.even q.
Proof.
  unfold big.Bit0. rewrite Z.bit0_odd, <- Z.negb_even.
  destruct (Z.even q); reflexivity.
Qed.

(** Division with remainder of the magnitude. *)
Lemma abs_quotient_remainder (m : Z) :
  Z.abs m = quotientOf m * oneUnit + remainderOf m /\
  0 <= remainderOf m < oneUnit.
Proof.
  unfold quotientOf, remainderOf. split.
  - rewrite Z.mul_comm. apply Z.div_mod. discriminate.
  - apply Z.mod_pos_bound. reflexivity.
Qed.

Lemma chopPrecisionAndRound_nonneg_spec (d : Z) :
  0 <= d ->
  chopPrecisionAndRound_nonneg d =
    let q := d / oneUnit in
    let r := d mod oneUnit in
    if r =? 0 then q
    else if r <? halfUnit then q
    else if r >? halfUnit then q + 1
    else if Z.even q then q else q + 1.
Proof.
  intros Hd. unfold chopPrecisionAndRound_nonneg, big.QuoRem.
  rewrite oneUnit_eq, halfUnit_eq.
  rewrite Z.quot_div_nonneg, Z.rem_mod_nonneg by (rewrite ?precisionReuse_eq; lia).
  cbv zeta.
  assert (Hr : 0 <= d mod precisionReuse < precisionReuse)
    by (apply Z.mod_pos_bound; reflexivity).
  set (q := d / precisionReuse) in *. set (r := d mod precisionReuse) in *.
  unfold big.Sign, oneInt.
  destruct (Z.eqb_spec r 0) as [->|Hr0]; [reflexivity|].
  replace (Z.sgn r =? 0) with false by (symmetry; apply Z.eqb_neq; lia).
  unfold big.Cmp. rewrite Bit0_even.
  destruct (Z.compare_spec r fivePrecision) as [He|Hl|Hg].
  - replace (r <? fivePrecision) with false by (symmetry; apply Z.ltb_ge; lia).
    replace (r >? fivePrecision) with false
      by (symmetry; rewrite Z.gtb_ltb; apply Z.ltb_ge; lia).
    reflexivity.
  - replace (r <? fivePrecision) with true by (symmetry; apply Z.ltb_lt; lia).
    reflexivity.
  - replace (r <? fivePrecision) with false by (symmetry; apply Z.ltb_ge; lia).
    replace (r >? fivePrecision) with true
      by (symmetry; rewrite Z.gtb_ltb; apply Z.ltb_lt; lia).
    reflexivity.
Qed.

Lemma chopPrecisionAndRound_roundHalfEven (m : Z) :
  chopPrecisionAndRound m = roundHalfEven m.
Proof.
  unfold chopPrecisionAndRound, roundHalfEven, quotientOf, remainderOf.
  rewrite Sign_neg_iff. destruct (Z.ltb_spec m 0) as [Hneg|Hpos].
  - rewrite chopPrecisionAndRound_nonneg_spec by lia. cbv zeta.
    rewrite (Z.abs_neq m) by lia. rewrite (Z.sgn_neg m) by lia. lia.
  - rewrite chopPrecisionAndRound_nonneg_spec by lia. cbv zeta.
    rewrite (Z.abs_eq m) by lia.
    destruct (Z.eq_dec m 0) as [->|Hm]; [reflexivity|].
    rewrite (Z.sgn_pos m) by lia. lia.
Qed.

Lemma chopPrecisionAndTruncate_spec (m : Z) :
  chopPrecisionAndTruncate m = truncateTowardZero m.
Proof.
  unfold chopPrecisionAndTruncate, truncateTowardZero, quotientOf.
  rewrite oneUnit_eq.
  destruct (Z.ltb_spec m 0) as [Hneg|Hpos].
  - rewrite (Z.abs_neq m), (Z.sgn_neg m) by lia.
    rewrite <- (Z.opp_involutive m) at 1. rewrite Z.quot_opp_l by discriminate.
    rewrite Z.quot_div_nonneg by (rewrite ?precisionReuse_eq; lia). lia.
  - rewrite (Z.abs_eq m) by lia.
    rewrite Z.quot_div_nonneg by (rewrite ?precisionReuse_eq; lia).
    destruct (Z.eq_dec m 0) as [->|Hm]; [reflexivity|].
    rewrite (Z.sgn_pos m) by lia. lia.
Qed.

(** What [chopPrecisionAndRoundUp] computes: away from zero for an
    argument that is not negative, toward zero for a negative one. *)
Lemma chopPrecisionAndRoundUp_spec (m : Z) :
  chopPrecisionAndRoundUp m =
    if m <? 0 then truncateTowardZero m else roundUpAwayFromZero m.
Proof.
  unfold chopPrecisionAndRoundUp. rewrite Sign_neg_iff.
  destruct (Z.ltb_spec m 0) as [Hneg|Hpos].
  - rewrite chopPrecisionAndTruncate_spec.
    unfold truncateTowardZero, quotientOf.
    rewrite Z.abs_opp, Z.sgn_opp. lia.
  - unfold roundUpAwayFromZero, quotientOf, remainderOf, big.QuoRem.
    rewrite oneUnit_eq, (Z.abs_eq m) by lia.
    rewrite Z.quot_div_nonneg, Z.rem_mod_nonneg by (rewrite ?precisionReuse_eq; lia).
    assert (Hr : 0 <= m mod precisionReuse < precisionReuse)
      by (apply Z.mod_pos_bound; reflexivity).
    unfold big.Sign, oneInt.
    destruct (Z.eq_dec m 0) as [->|Hm]; [reflexivity|].
    rewrite (Z.sgn_pos m) by lia.
    destruct (Z.eqb_spec (m mod precisionReuse) 0) as [Hr0|Hr0];
      [rewrite Hr0; change (Z.sgn 0 =? 0) with true; cbv iota; lia|].
    replace (Z.sgn (m mod precisionReuse) =? 0) with false
      by (symmetry; apply Z.eqb_neq; lia).
    lia.
Qed.





(** ** Round-up quotient *)




(** ** The bit-length bound *)

Section Bound.

Variable maxBitLen : Z.

Lemma checked_store (x : Z) : store (checked maxBitLen x) = x.
Proof. reflexivity. Qed.

Lemma checked_passes (x : Z) :
  panicked (checked maxBitLen x) = None <-> withinBound maxBitLen x.
Proof.
  unfold checked, overflows, withinBound. simpl.
  rewrite Z.gtb_ltb.
  destruct (Z.ltb_spec (maxDecBitLen maxBitLen) (big.BitLen x));
    split; intros Hx; try reflexivity; try discriminate; lia.
Qed.

Lemma immut_checked (x r : Z) :
  immut (checked maxBitLen x) = Return r -> r = x /\ withinBound maxBitLen r.
Proof.
  unfold immut. destruct (panicked (checked maxBitLen x)) eqn:Hp;
    [discriminate|].
  intros [= <-]. split; [reflexivity|]. apply checked_passes, Hp.
Qed.

Lemma immut_checked_cases (x : Z) :
  immut (checked maxBitLen x) = Panics IntOverflow \/
  (immut (checked maxBitLen x) = Return x /\ withinBound maxBitLen x).
Proof.
  unfold immut. destruct (panicked (checked maxBitLen x)) eqn:Hp.
  - left. unfold checked in Hp. simpl in Hp.
    destruct (overflows maxBitLen x); congruence.
  - right. split; [reflexivity|]. apply checked_passes, Hp.
Qed.

(** A mutating method that ends with the check either panics or leaves
    a value within the bound. *)
Lemma checked_mut_sound (x : Z) :
  panicked (checked maxBitLen x) = Some IntOverflow \/
  (panicked (checked maxBitLen x) = None /\
   withinBound maxBitLen (store (checked maxBitLen x))).
Proof.
  unfold checked. simpl.
  destruct (overflows maxBitLen x) eqn:Ho; [left; reflexivity|right].
  split; [reflexivity|]. apply checked_passes. unfold checked. simpl.
  rewrite Ho. reflexivity.
Qed.

(** Every operation of the arithmetic core that ends with the check
    aborts or returns within the bound, whatever its operands. *)
Lemma checked_operations_sound (d d2 r : Z) :
  (Add maxBitLen d d2 = Return r -> withinBound maxBitLen r) /\
  (Sub maxBitLen d d2 = Return r -> withinBound maxBitLen r) /\
  (Mul maxBitLen d d2 = Return r -> withinBound maxBitLen r) /\
  (MulTruncate maxBitLen d d2 = Return r -> withinBound maxBitLen r) /\
  (MulInt maxBitLen d d2 = Return r -> withinBound maxBitLen r) /\
  (MulInt64 maxBitLen d d2 = Return r -> withinBound maxBitLen r) /\
  (Quo maxBitLen d d2 = Return r -> withinBound maxBitLen r) /\
  (QuoTruncate maxBitLen d d2 = Return r -> withinBound maxBitLen r) /\
  (QuoRoundUp maxBitLen d d2 = Return r -> withinBound maxBitLen r).
Proof.
  unfold Add, Sub, Mul, MulTruncate, MulInt, MulInt64, Quo, QuoTruncate,
    QuoRoundUp, ImmutOp, AddMut, SubMut, MulMut, MulTruncateMut, MulIntMut,
    MulInt64Mut, QuoMut, QuoTruncateMut, QuoRoundupMut, Clone.
  repeat split; intros H;
    try (apply immut_checked in H; apply H);
    destruct (d2 =? 0); try discriminate;
    apply immut_checked in H; apply H.
Qed.

(** Truncation never grows the magnitude. *)
Lemma TruncateDec_sound (d : Z) :
  withinBound maxBitLen d -> withinBound maxBitLen (TruncateDec d).
Proof.
  unfold withinBound. intros H.
  apply Z.le_trans with (big.BitLen d); [|exact H].
  apply BitLen_mono.
  unfold TruncateDec, NewDecFromBigInt, chopPrecisionAndTruncateNonMutative.
  rewrite chopPrecisionAndTruncate_spec. unfold truncateTowardZero.
  pose proof (abs_quotient_remainder d) as [Habs Hr].
  change (tenInt ^ (Precision - 0)) with oneUnit.
  rewrite !Z.abs_mul.
  assert (0 <= quotientOf d)
    by (unfold quotientOf; apply Z.div_pos; [lia|reflexivity]).
  assert (Hs : Z.abs (Z.sgn d) <= 1) by (destruct d; simpl; lia).
  rewrite (Z.abs_eq (quotientOf d)) by assumption.
  change (Z.abs oneUnit) with oneUnit.
  assert (Hu : oneUnit = 1000000000000000000) by reflexivity.
  pose proof (Z.abs_nonneg (Z.sgn d)). nia.
Qed.

End Bound.

(** [Ceil] multiplies the ceiling of the quotient back by the unit, with
    no check of the result. *)
Lemma Ceil_spec (d : Z) : Ceil d = - ((- d) / oneUnit) * oneUnit.
Proof.
  unfold Ceil, big.QuoRem, NewDecFromBigInt, zeroInt, oneInt.
  change (tenInt ^ (Precision - 0)) with oneUnit.
  rewrite <- oneUnit_eq.
  assert (Hu : oneUnit = 1000000000000000000) by reflexivity.
  assert (Hqr : d = oneUnit * Z.quot d oneUnit + Z.rem d oneUnit)
    by (apply Z.quot_rem'; lia).
  set (q := Z.quot d oneUnit) in *. set (r := Z.rem d oneUnit) in *.
  assert (Hcmp : (big.Cmp r 0 =? 0) = (r =? 0)).
  { unfold big.Cmp. destruct (Z.compare_spec r 0), (Z.eqb_spec r 0);
      try reflexivity; lia. }
  rewrite Hcmp, Sign_neg_iff. f_equal.
  destruct (Z.eqb_spec r 0) as [Hr0|Hr0].
  - replace (- d) with ((- q) * oneUnit) by lia.
    rewrite Z.div_mul by lia. lia.
  - assert (Hb : Z.abs r < Z.abs oneUnit)
      by (apply Z.rem_bound_abs; lia).
    destruct (Z.ltb_spec r 0) as [Hneg|Hpos].
    + replace (- d) with ((- q) * oneUnit + (- r)) by lia.
      rewrite Z.div_add_l by lia. rewrite Z.div_small by lia. lia.
    + replace (- d) with ((- q - 1) * oneUnit + (oneUnit - r)) by lia.
      rewrite Z.div_add_l by lia. rewrite Z.div_small by lia. lia.
Qed.

(** The mutating forms: when they do not panic, the receiver is left
    within the bound. *)
Lemma checked_mutations_sound (maxBitLen d d2 : Z) :
  (panicked (AddMut maxBitLen d d2) = None ->
   withinBound maxBitLen (store (AddMut maxBitLen d d2))) /\
  (panicked (SubMut maxBitLen d d2) = None ->
   withinBound maxBitLen (store (SubMut maxBitLen d d2))) /\
  (panicked (MulMut maxBitLen d d2) = None ->
   withinBound maxBitLen (store (MulMut maxBitLen d d2))) /\
  (panicked (MulTruncateMut maxBitLen d d2) = None ->
   withinBound maxBitLen (store (MulTruncateMut maxBitLen d d2))) /\
  (panicked (MulIntMut maxBitLen d d2) = None ->
   withinBound maxBitLen (store (MulIntMut maxBitLen d d2))) /\
  (panicked (MulInt64Mut maxBitLen d d2) = None ->
   withinBound maxBitLen (store (MulInt64Mut maxBitLen d d2))) /\
  (panicked (QuoMut maxBitLen d d2) = None ->
   withinBound maxBitLen (store (QuoMut maxBitLen d d2))) /\
  (panicked (QuoTruncateMut maxBitLen d d2) = None ->
   withinBound maxBitLen (store (QuoTruncateMut maxBitLen d d2))) /\
  (panicked (QuoRoundupMut maxBitLen d d2) = None ->
   withinBound maxBitLen (store (QuoRoundupMut maxBitLen d d2))).
Proof.
  unfold AddMut, SubMut, MulMut, MulTruncateMut, MulIntMut, MulInt64Mut,
    QuoMut, QuoTruncateMut, QuoRoundupMut.
  repeat split; intros H;
    try (apply checked_passes in H; exact H);
    destruct (d2 =? 0); try discriminate;
    apply checked_passes in H; exact H.
Qed.

(** C4 holds for the operations that end with the check and for
    [TruncateDec], and fails on [Ceil]: the largest magnitude within the
    bound, all ones in binary, is not a whole number of units, and its
    ceiling, which [Ceil] returns without the check its siblings make,
    needs one more bit than the bound allows. *)
Theorem Ceil_escapes_bound (maxBitLen : Z) :
  (0 <= maxBitLen)%Z ->
  (forall d d2 r,
     (Add maxBitLen d d2 = Return r -> withinBound maxBitLen r) /\
     (Sub maxBitLen d d2 = Return r -> withinBound maxBitLen r) /\
     (Mul maxBitLen d d2 = Return r -> withinBound maxBitLen r) /\
     (MulTruncate maxBitLen d d2 = Return r -> withinBound maxBitLen r) /\
     (MulInt maxBitLen d d2 = Return r -> withinBound maxBitLen r) /\
     (MulInt64 maxBitLen d d2 = Return r -> withinBound maxBitLen r) /\
     (Quo maxBitLen d d2 = Return r -> withinBound maxBitLen r) /\
     (QuoTruncate maxBitLen d d2 = Return r -> withinBound maxBitLen r) /\
     (QuoRoundUp maxBitLen d d2 = Return r -> withinBound maxBitLen r)) /\
  (forall d d2,
     (panicked (AddMut maxBitLen d d2) = None ->
      withinBound maxBitLen (store (AddMut maxBitLen d d2))) /\
     (panicked (SubMut maxBitLen d d2) = None ->
      withinBound maxBitLen (store (SubMut maxBitLen d d2))) /\
     (panicked (MulMut maxBitLen d d2) = None ->
      withinBound maxBitLen (store (MulMut maxBitLen d d2))) /\
     (panicked (MulTruncateMut maxBitLen d d2) = None ->
      withinBound maxBitLen (store (MulTruncateMut maxBitLen d d2))) /\
     (panicked (MulIntMut maxBitLen d d2) = None ->
      withinBound maxBitLen (store (MulIntMut maxBitLen d d2))) /\
     (panicked (MulInt64Mut maxBitLen d d2) = None ->
      withinBound maxBitLen (store (MulInt64Mut maxBitLen d d2))) /\
     (panicked (QuoMut maxBitLen d d2) = None ->
      withinBound maxBitLen (store (QuoMut maxBitLen d d2))) /\
     (panicked (QuoTruncateMut maxBitLen d d2) = None ->
      withinBound maxBitLen (store (QuoTruncateMut maxBitLen d d2))) /\
     (panicked (QuoRoundupMut maxBitLen d d2) = None ->
      withinBound maxBitLen (store (QuoRoundupMut maxBitLen d d2)))) /\
  (forall d, withinBound maxBitLen d -> withinBound maxBitLen (TruncateDec d)) /\
  (let d := 2 ^ maxDecBitLen maxBitLen - 1 in
   withinBound maxBitLen d /\ ~ withinBound maxBitLen (Ceil d)).
Proof.
  intros HB.
  split; [intros d d2 r; apply checked_operations_sound|].
  split; [intros d d2; apply checked_mutations_sound|].
  split; [apply TruncateDec_sound|].
  cbv zeta. unfold withinBound.
  assert (Hn : 0 <= maxDecBitLen maxBitLen)
    by (unfold maxDecBitLen, decimalTruncateBits, DecimalPrecisionBits; lia).
  set (n := maxDecBitLen maxBitLen) in *.
  assert (Hpow : 2 ^ n = 2 * 2 ^ (n - 1)).
  { rewrite <- Z.pow_succ_r
      by (unfold n, maxDecBitLen, decimalTruncateBits, DecimalPrecisionBits; lia).
    f_equal. lia. }
  assert (Hpos : 0 < 2 ^ (n - 1))
    by (apply Z.pow_pos_nonneg;
        unfold n, maxDecBitLen, decimalTruncateBits, DecimalPrecisionBits; lia).
  split.
  - apply BitLen_le_iff; [exact Hn|]. lia.
  - rewrite (BitLen_le_iff _ n Hn). rewrite Ceil_spec.
    assert (Hu : oneUnit = 1000000000000000000) by reflexivity.
    set (d := 2 ^ n - 1) in *.
    pose proof (Z.div_mod (- d) oneUnit ltac:(lia)) as Hdm.
    pose proof (Z.mod_pos_bound (- d) oneUnit ltac:(lia)) as Hm.
    set (k := (- d) / oneUnit) in *. set (r := (- d) mod oneUnit) in *.
    assert (Hk : - k * oneUnit >= d) by lia.
    assert (Hne : - k * oneUnit <> d).
    { intros He. assert (2 * 2 ^ (n - 1) - 1 = - k * 1000000000000000000) by lia.
      lia. }
    lia.
Qed.

Lemma Ceil_escapes_bound_witness :
  0 <= 256 /\
  withinBound 256 (2 ^ maxDecBitLen 256 - 1) /\
  ~ withinBound 256 (Ceil (2 ^ maxDecBitLen 256 - 1)).
Proof.
  assert (H : 0 <= 256) by discriminate.
  split; [exact H|]. exact (proj2 (proj2 (proj2 (Ceil_escapes_bound 256 H)))).
Defined.

(** ** Strings *)

Local Open Scope string_scope.

Lemma append_nil_r (s : string) : s ++ "" = s.
Proof. induction s as [|c s IH]; simpl; [|rewrite IH]; reflexivity. Qed.

Lemma append_assoc (a b c : string) : (a ++ b) ++ c = a ++ b ++ c.
Proof. induction a as [|x a IH]; simpl; [|rewrite IH]; reflexivity. Qed.

Lemma length_append (a b : string) :
  length (a ++ b) = (length a + length b)%nat.
Proof. induction a as [|x a IH]; simpl; [|rewrite IH]; reflexivity. Qed.

Lemma length_zero_iff (s : string) : length s = O <-> s = "".
Proof. destruct s; simpl; split; congruence. Qed.

Lemma length_zeros (n : nat) : length (zeros n) = n.
Proof. induction n as [|n IH]; simpl; [|rewrite IH]; reflexivity. Qed.

Lemma substring_zero_length (n : nat) (s : string) : substring n 0 s = "".
Proof.
  revert n. induction s as [|c s IH]; intros [|n]; simpl; auto.
Qed.

Lemma substring_prefix (a b : string) : substring 0 (length a) (a ++ b) = a.
Proof.
  induction a as [|x a IH]; simpl.
  - apply (substring_zero_length 0).
  - rewrite IH. reflexivity.
Qed.

Lemma substring_all (s : string) : substring 0 (length s) s = s.
Proof. induction s as [|c s IH]; simpl; [|rewrite IH]; reflexivity. Qed.

Lemma substring_suffix (a b : string) :
  substring (length a) (length b) (a ++ b) = b.
Proof. induction a as [|x a IH]; simpl; [apply substring_all|exact IH]. Qed.

(** A string splits at any position within it. *)
Lemma split_at (n : nat) (s : string) :
  (n <= length s)%nat ->
  exists a b, s = a ++ b /\ length a = n /\ length b = (length s - n)%nat.
Proof.
  revert s. induction n as [|n IH]; intros s Hn.
  - exists "", s. simpl. repeat split. lia.
  - destruct s as [|c s]; simpl in Hn; [lia|].
    destruct (IH s ltac:(lia)) as (a & b & -> & Ha & Hb).
    exists (String c a), b. simpl. repeat split; congruence.
Qed.

(** *** Splitting on the point *)

Lemma Split_nonempty (s : string) : Split s <> [].
Proof.
  induction s as [|c s IH]; simpl; [discriminate|].
  destruct (Ascii.eqb c "."); [discriminate|].
  destruct (Split s); [contradiction|discriminate].
Qed.

Lemma length_Split (s : string) : List.length (Split s) = S (countDots s).
Proof.
  induction s as [|c s IH]; simpl; [reflexivity|].
  destruct (Ascii.eqb c "."); simpl; [congruence|].
  destruct (Split s); simpl in *; congruence.
Qed.

Lemma noDot_cons (c : ascii) (s : string) :
  noDot (String c s) = negb (Ascii.eqb c ".") && noDot s.
Proof. unfold noDot. simpl. destruct (Ascii.eqb c "."); reflexivity. Qed.

Lemma Split_noDot (s : string) : noDot s = true -> Split s = [s].
Proof.
  induction s as [|c s IH]; [reflexivity|].
  rewrite noDot_cons. intros [Hc Hs]%andb_true_iff. simpl.
  destruct (Ascii.eqb c "."); [discriminate|]. rewrite (IH Hs). reflexivity.
Qed.

Lemma Split_point (a b : string) :
  noDot a = true -> Split (a ++ "." ++ b) = a :: Split b.
Proof.
  induction a as [|c a IH]; [reflexivity|].
  rewrite noDot_cons. intros [Hc Ha]%andb_true_iff. simpl.
  destruct (Ascii.eqb c "."); [discriminate|].
  simpl in IH. rewrite (IH Ha). reflexivity.
Qed.

Lemma countDots_append (a b : string) :
  countDots (a ++ b) = (countDots a + countDots b)%nat.
Proof.
  induction a as [|c a IH]; simpl; [reflexivity|].
  destruct (Ascii.eqb c "."); simpl; congruence.
Qed.

(** *** Digits *)

Lemma isDigit_not_point (c : ascii) : isDigit c = true -> Ascii.eqb c "." = false.
Proof.
  destruct c as [[] [] [] [] [] [] [] []]; try reflexivity; discriminate.
Qed.

Lemma isDigit_not_minus (c : ascii) : isDigit c = true -> Ascii.eqb c "-" = false.
Proof.
  destruct c as [[] [] [] [] [] [] [] []]; try reflexivity; discriminate.
Qed.

Lemma isDigit_not_plus (c : ascii) : isDigit c = true -> Ascii.eqb c "+" = false.
Proof.
  destruct c as [[] [] [] [] [] [] [] []]; try reflexivity; discriminate.
Qed.

Lemma digit_value (c : ascii) :
  isDigit c = true -> bigtext.digit c = Some (digitValue c).
Proof. unfold isDigit, digitValue. destruct (bigtext.digit c); congruence. Qed.

Lemma digitValue_range (c : ascii) : (0 <= digitValue c <= 9)%Z.
Proof.
  unfold digitValue, bigtext.digit.
  destruct ((48 <=? Z.of_N (N_of_ascii c))%Z &&
            (Z.of_N (N_of_ascii c) <=? 57)%Z) eqn:H; [|lia].
  apply andb_true_iff in H. lia.
Qed.

Lemma allDigits_append (a b : string) :
  allDigits (a ++ b) = allDigits a && allDigits b.
Proof.
  induction a as [|c a IH]; simpl; [reflexivity|].
  rewrite IH, andb_assoc. reflexivity.
Qed.

Lemma allDigits_zeros (n : nat) : allDigits (zeros n) = true.
Proof. induction n as [|n IH]; simpl; [reflexivity|exact IH]. Qed.

Lemma allDigits_noDot (s : string) : allDigits s = true -> noDot s = true.
Proof.
  induction s as [|c s IH]; [reflexivity|]. simpl. rewrite noDot_cons.
  intros [Hc Hs]%andb_true_iff. rewrite (isDigit_not_point c Hc). exact (IH Hs).
Qed.

Lemma numeral_nonneg (s : string) : (0 <= numeral s)%Z.
Proof.
  induction s as [|c s IH]; simpl; [lia|].
  pose proof (digitValue_range c).
  assert (0 <= 10 ^ Z.of_nat (length s))%Z by (apply Z.pow_nonneg; lia). nia.
Qed.

(** Scanning digits accumulates the number they denote. *)
Lemma scan_allDigits (s : string) (acc : Z) :
  allDigits s = true ->
  bigtext.scan s acc = Some (acc * 10 ^ Z.of_nat (length s) + numeral s)%Z.
Proof.
  revert acc. induction s as [|c s IH]; intros acc.
  - intros _. simpl. f_equal. lia.
  - cbn [allDigits bigtext.scan numeral].
    intros [Hc Hs]%andb_true_iff. rewrite (digit_value c Hc), (IH _ Hs).
    f_equal. change (length (String c s)) with (S (length s)).
    rewrite Nat2Z.inj_succ, Z.pow_succ_r by lia. ring.
Qed.

Lemma scanDigits_allDigits (s : string) :
  allDigits s = true -> s <> "" -> bigtext.scanDigits s = Some (numeral s).
Proof.
  intros Hs Hne. destruct s as [|c s]; [contradiction|].
  unfold bigtext.scanDigits. rewrite scan_allDigits by exact Hs.
  f_equal.
Qed.

(** Digits without a sign in front are read as the number they denote. *)
Lemma SetString_allDigits (s : string) :
  allDigits s = true -> s <> "" -> bigtext.SetString s = Some (numeral s).
Proof.
  intros Hs Hne. destruct s as [|c s]; [contradiction|].
  unfold bigtext.SetString.
  pose proof Hs as [Hc _]%andb_true_iff.
  rewrite (isDigit_not_minus c Hc), (isDigit_not_plus c Hc).
  apply scanDigits_allDigits; assumption.
Qed.

Lemma numeral_append (a b : string) :
  numeral (a ++ b) = (numeral a * 10 ^ Z.of_nat (length b) + numeral b)%Z.
Proof.
  induction a as [|c a IH]; simpl; [reflexivity|].
  rewrite IH, length_append, Nat2Z.inj_add, Z.pow_add_r by lia. ring.
Qed.

Lemma numeral_zeros (n : nat) : numeral (zeros n) = 0%Z.
Proof. induction n as [|n IH]; simpl; [reflexivity|exact IH]. Qed.

(** Zeros in front do not change the number; zeros behind multiply it by
    a power of ten. *)
Lemma numeral_leading_zeros (n : nat) (s : string) :
  numeral (zeros n ++ s) = numeral s.
Proof. rewrite numeral_append, numeral_zeros. lia. Qed.

Lemma numeral_trailing_zeros (s : string) (n : nat) :
  numeral (s ++ zeros n) = (numeral s * 10 ^ Z.of_nat n)%Z.
Proof. rewrite numeral_append, numeral_zeros, length_zeros. lia. Qed.

(** ** The string constructor *)

Section Constructor.

Variable maxBitLen : Z.

Lemma strip_signed (neg : bool) (body : string) :
  (neg = false -> startsWithMinus body = false) ->
  match signed neg body with
  | String "-"%char rest => (true, rest)
  | _ => (false, signed neg body)
  end = (neg, body).
Proof.
  destruct neg; [reflexivity|]. intros H. specialize (H eq_refl).
  unfold signed. destruct body as [|c body]; [reflexivity|].
  destruct c as [[] [] [] [] [] [] [] []]; try reflexivity; discriminate.
Qed.

Lemma length_signed_nonzero (neg : bool) (body : string) :
  body <> "" -> (length (signed neg body) =? 0)%nat = false.
Proof.
  intros H. destruct neg; [reflexivity|].
  destruct body; [contradiction|reflexivity].
Qed.

Lemma length_nonzero (s : string) : s <> "" -> (length s =? 0)%nat = false.
Proof. destruct s; [contradiction|reflexivity]. Qed.

Lemma sprintf0_empty (n : nat) : sprintf0 n "" = zeros n.
Proof. unfold sprintf0. simpl. rewrite Nat.sub_0_r. apply append_nil_r. Qed.

(** The tail of the constructor is [finish]. *)
Lemma NewDecFromStr_tail (neg : bool) (combinedStr : string) :
  match bigtext.SetString combinedStr with
  | None => Failed (ErrFailedToSet combinedStr)
  | Some combined =>
      if (big.BitLen combined >? maxDecBitLen maxBitLen)%Z
      then Failed (ErrOutOfRange (big.BitLen combined))
      else Parsed (if neg then (- combined)%Z else combined)
  end = finish maxBitLen neg combinedStr.
Proof. reflexivity. Qed.

Section Body.

Variables (neg : bool) (body : string).
Hypothesis body_nonempty : body <> "".
Hypothesis sign_stripped : neg = false -> startsWithMinus body = false.

(** More than one point. *)
Lemma NewDecFromStr_points :
  (2 <= countDots body)%nat ->
  NewDecFromStr maxBitLen (signed neg body) = Failed ErrInvalidDecimalStr.
Proof.
  intros Hdots. unfold NewDecFromStr.
  rewrite (length_signed_nonzero neg body body_nonempty).
  rewrite (strip_signed neg body sign_stripped).
  rewrite (length_nonzero body body_nonempty).
  rewrite length_Split.
  replace (S (countDots body) =? 2)%nat with false
    by (symmetry; apply Nat.eqb_neq; lia).
  replace (2 <? S (countDots body))%nat with true
    by (symmetry; apply Nat.ltb_lt; lia).
  reflexivity.
Qed.

(** Exactly one point. *)
Lemma NewDecFromStr_point (ip fp : string) :
  body = ip ++ "." ++ fp -> noDot ip = true -> noDot fp = true ->
  NewDecFromStr maxBitLen (signed neg body) =
    if (length fp =? 0)%nat || (length ip =? 0)%nat
    then Failed ErrInvalidDecimalLength
    else if (18 <? length fp)%nat
    then Failed (ErrInvalidPrecision (length fp))
    else finish maxBitLen neg (ip ++ fp ++ zeros (18 - length fp)).
Proof.
  intros Hbody Hip Hfp. unfold NewDecFromStr.
  rewrite (length_signed_nonzero neg body body_nonempty).
  rewrite (strip_signed neg body sign_stripped).
  rewrite (length_nonzero body body_nonempty).
  rewrite Hbody, (Split_point ip fp Hip), (Split_noDot fp Hfp).
  cbn [List.length Nat.eqb hd nth].
  destruct ((length fp =? 0)%nat || (length ip =? 0)%nat); [reflexivity|].
  unfold Precision. rewrite Z.gtb_ltb.
  destruct (Nat.ltb_spec 18 (length fp)) as [Hl|Hl].
  - replace (18 <? Z.of_nat (length fp))%Z with true
      by (symmetry; apply Z.ltb_lt; lia).
    reflexivity.
  - replace (18 <? Z.of_nat (length fp))%Z with false
      by (symmetry; apply Z.ltb_ge; lia).
    rewrite sprintf0_empty, NewDecFromStr_tail.
    replace (Z.to_nat (18 - Z.of_nat (length fp))) with (18 - length fp)%nat
      by lia.
    rewrite append_assoc. reflexivity.
Qed.

(** No point. *)
Lemma NewDecFromStr_whole :
  noDot body = true ->
  NewDecFromStr maxBitLen (signed neg body) =
    finish maxBitLen neg (body ++ zeros 18).
Proof.
  intros Hbody. unfold NewDecFromStr.
  rewrite (length_signed_nonzero neg body body_nonempty).
  rewrite (strip_signed neg body sign_stripped).
  rewrite (length_nonzero body body_nonempty).
  rewrite (Split_noDot body Hbody).
  cbn [List.length Nat.eqb Nat.ltb Nat.leb hd].
  unfold Precision. cbn [Z.of_nat Z.gtb Z.compare Z.sub Z.opp Z.add].
  rewrite sprintf0_empty, NewDecFromStr_tail. reflexivity.
Qed.

End Body.

(** Digits are read as the number they denote, scaled by the zeros
    appended. *)
Lemma finish_digits (neg : bool) (s : string) (k : nat) :
  allDigits s = true -> s <> "" ->
  finish maxBitLen neg (s ++ zeros k) =
    let m := (numeral s * 10 ^ Z.of_nat k)%Z in
    if (big.BitLen m >? maxDecBitLen maxBitLen)%Z
    then Failed (ErrOutOfRange (big.BitLen m))
    else Parsed (if neg then (- m)%Z else m).
Proof.
  intros Hs Hne. unfold finish.
  rewrite SetString_allDigits.
  - rewrite numeral_trailing_zeros. reflexivity.
  - rewrite allDigits_append, Hs, allDigits_zeros. reflexivity.
  - destruct s; [contradiction|discriminate].
Qed.

End Constructor.

(** Every text is empty, a lone "-", or a non-empty body after the sign
    that was stripped, if any. *)
Lemma signed_cover (s : string) :
  s = "" \/ s = "-" \/
  exists neg body,
    s = signed neg body /\ body <> "" /\
    (neg = false -> startsWithMinus body = false).
Proof.
  destruct s as [|c s]; [left; reflexivity|right].
  destruct (startsWithMinus (String c s)) eqn:Hm.
  - assert (c = "-"%char) as ->.
    { destruct c as [[] [] [] [] [] [] [] []]; try discriminate. reflexivity. }
    destruct s as [|c' s']; [left; reflexivity|right].
    exists true, (String c' s'). repeat split; discriminate.
  - right. exists false, (String c s). repeat split; [discriminate|auto].
Qed.

(** A body with exactly one point is an integer part and a fractional
    part around it, neither holding a point. *)
Lemma one_point_cover (body : string) :
  countDots body = 1%nat ->
  exists ip fp, body = ip ++ "." ++ fp /\ noDot ip = true /\ noDot fp = true.
Proof.
  induction body as [|c body IH]; [discriminate|]. simpl.
  destruct (Ascii.eqb_spec c ".") as [->|Hc].
  - intros [= H]. exists "", body. repeat split. unfold noDot. rewrite H.
    reflexivity.
  - intros H. destruct (IH H) as (ip & fp & -> & Hip & Hfp).
    exists (String c ip), fp. repeat split; [|exact Hfp].
    rewrite noDot_cons, Hip.
    destruct (Ascii.eqb_spec c "."); [contradiction|reflexivity].
Qed.




(** C10: the integer parser accepts a sign in front of the digits, so the
    constructor takes texts outside the documented format: "--5" gives
    positive 5 (the inner "-" goes into the magnitude, the outer one
    negates it back) and "+5" gives 5. *)
Theorem NewDecFromStr_accepts_inner_sign (maxBitLen : Z) :
  (4 <= maxBitLen)%Z ->
  (forall s, allDigits s = true -> s <> "" ->
     bigtext.SetString ("-" ++ s) = Some (- numeral s)%Z /\
     bigtext.SetString ("+" ++ s) = Some (numeral s)) /\
  NewDecFromStr maxBitLen "--5" = Parsed 5000000000000000000%Z /\
  NewDecFromStr maxBitLen "+5" = Parsed 5000000000000000000%Z.
Proof.
  intros HB.
  assert (Hfits : (big.BitLen 5000000000000000000 >? maxDecBitLen maxBitLen)%Z
                  = false).
  { change (big.BitLen 5000000000000000000) with 63%Z.
    unfold maxDecBitLen, decimalTruncateBits, DecimalPrecisionBits.
    rewrite Z.gtb_ltb. apply Z.ltb_ge. lia. }
  split; [|split].
  - intros s Hs Hne. unfold bigtext.SetString. simpl.
    rewrite (scanDigits_allDigits s Hs Hne). split; reflexivity.
  - change "--5" with (signed true "-5").
    rewrite NewDecFromStr_whole by (reflexivity || discriminate).
    unfold finish.
    change (bigtext.SetString ("-5" ++ zeros 18))
      with (Some (-5000000000000000000)%Z).
    cbv iota beta.
    change (big.BitLen (-5000000000000000000))
      with (big.BitLen 5000000000000000000).
    rewrite Hfits. reflexivity.
  - change "+5" with (signed false "+5").
    rewrite NewDecFromStr_whole by (reflexivity || discriminate).
    unfold finish.
    change (bigtext.SetString ("+5" ++ zeros 18))
      with (Some 5000000000000000000%Z).
    cbv iota beta. rewrite Hfits. reflexivity.
Qed.

Lemma NewDecFromStr_accepts_inner_sign_witness :
  (4 <= 256)%Z /\
  NewDecFromStr 256 "--5" = Parsed 5000000000000000000%Z /\
  NewDecFromStr 256 "+5" = Parsed 5000000000000000000%Z.
Proof.
  assert (H : (4 <= 256)%Z) by discriminate.
  split; [exact H|]. exact (proj2 (NewDecFromStr_accepts_inner_sign 256 H)).
Defined.

(** ** Decimal text of big integers *)

Lemma allDigits_string_of_uint (u : Decimal.uint) :
  allDigits (NilEmpty.string_of_uint u) = true.
Proof. induction u; simpl; auto. Qed.

Ltac eval_digit :=
  match goal with
  | |- context [bigtext.digit ?c] =>
      let v := eval vm_compute in (bigtext.digit c) in
      change (bigtext.digit c) with v; cbv iota beta
  end.

Lemma scan_string_of_uint_pos (u : Decimal.uint) (p : positive) :
  bigtext.scan (NilEmpty.string_of_uint u) (Z.pos p)
  = Some (Z.pos (Pos.of_uint_acc u p)).
Proof.
  revert p.
  induction u; intros p;
    cbn [NilEmpty.string_of_uint bigtext.scan Pos.of_uint_acc];
    [reflexivity|..];
    rewrite <- IHu; eval_digit; f_equal; lia.
Qed.

Lemma scan_string_of_uint (u : Decimal.uint) :
  bigtext.scan (NilEmpty.string_of_uint u) 0 = Some (Z.of_N (Pos.of_uint u)).
Proof.
  induction u; cbn [NilEmpty.string_of_uint bigtext.scan Pos.of_uint];
    [reflexivity|eval_digit; exact IHu|..];
    eval_digit; cbn [Z.of_N]; rewrite <- scan_string_of_uint_pos;
    reflexivity.
Qed.

Lemma string_of_uint_nonempty (u : Decimal.uint) :
  u <> Decimal.Nil -> NilEmpty.string_of_uint u <> "".
Proof. destruct u; simpl; congruence. Qed.

(** The text of a magnitude: digits only, at least one, denoting it. *)
Lemma MarshalText_magnitude (a : Z) :
  (0 <= a)%Z ->
  allDigits (bigtext.MarshalText a) = true /\
  bigtext.MarshalText a <> "" /\
  numeral (bigtext.MarshalText a) = a.
Proof.
  intros Ha.
  assert (Hm : bigtext.MarshalText a =
               NilEmpty.string_of_uint (N.to_uint (Z.to_N a))).
  { destruct a as [|p|p]; [reflexivity|reflexivity|lia]. }
  rewrite Hm. split; [apply allDigits_string_of_uint|]. split.
  - apply string_of_uint_nonempty.
    destruct a as [|p|p]; simpl; [discriminate|apply DecimalPos.Unsigned.to_uint_nonnil|lia].
  - pose proof (scan_string_of_uint (N.to_uint (Z.to_N a))) as Hs.
    rewrite scan_allDigits in Hs by apply allDigits_string_of_uint.
    injection Hs as Hs. simpl in Hs. rewrite Hs.
    change (Pos.of_uint (N.to_uint (Z.to_N a)))
      with (N.of_uint (N.to_uint (Z.to_N a))).
    rewrite DecimalN.Unsigned.of_to. lia.
Qed.

(** ** Formatting *)

(** The body of the rendering: an integer part, the point, and 18
    fractional digits, together the digits of the magnitude. *)
Lemma String_body (d : Z) :
  exists ip fp,
    decimal.String (Some d) = signed (d <? 0)%Z (ip ++ "." ++ fp) /\
    allDigits ip = true /\ allDigits fp = true /\
    ip <> "" /\ length fp = 18%nat /\
    numeral (ip ++ fp) = Z.abs d /\
    (ip = "0" /\ (length (bigtext.MarshalText (Z.abs d)) <= 18)%nat /\
     fp = zeros (18 - length (bigtext.MarshalText (Z.abs d)))
            ++ bigtext.MarshalText (Z.abs d)
     \/ (18 < length (bigtext.MarshalText (Z.abs d)))%nat /\
        ip ++ fp = bigtext.MarshalText (Z.abs d)).
Proof.
  unfold decimal.String, IsNegative, Neg. rewrite Sign_neg_iff.
  assert (Habs : (if (d <? 0)%Z then (- d)%Z else d) = Z.abs d)
    by (destruct (Z.ltb_spec d 0); lia).
  rewrite Habs.
  destruct (MarshalText_magnitude (Z.abs d) (Z.abs_nonneg d))
    as (Hdig & Hne & Hnum).
  set (ds := bigtext.MarshalText (Z.abs d)) in *.
  unfold Precision. change (Z.to_nat 18) with 18%nat.
  destruct (Z.leb_spec (Z.of_nat (length ds)) 18) as [Hle|Hgt].
  - exists "0", (zeros (18 - length ds) ++ ds). split.
    { destruct (d <? 0)%Z; reflexivity. }
    split; [reflexivity|]. split.
    { rewrite allDigits_append, allDigits_zeros. exact Hdig. }
    split; [discriminate|]. split.
    { rewrite length_append, length_zeros. lia. }
    split.
    { change ("0" ++ zeros (18 - length ds) ++ ds)
        with (zeros (S (18 - length ds)) ++ ds).
      rewrite numeral_leading_zeros. exact Hnum. }
    left. repeat split. lia.
  - destruct (split_at (length ds - 18) ds ltac:(lia)) as (a & b & Hab & Ha & Hb).
    exists a, b.
    assert (Hall : allDigits a && allDigits b = true)
      by (rewrite <- allDigits_append, <- Hab; exact Hdig).
    apply andb_true_iff in Hall as [Hda Hdb].
    split.
    { replace (length ds - (length ds - 18))%nat with (length b) by lia.
      rewrite <- Ha, Hab, substring_prefix, substring_suffix.
      destruct (d <? 0)%Z; reflexivity. }
    split; [exact Hda|]. split; [exact Hdb|]. split.
    { intros ->. simpl in Ha. lia. }
    split; [lia|]. split; [rewrite <- Hab; exact Hnum|].
    right. split; [lia|]. symmetry. exact Hab.
Qed.

(** C9: [String] of an absent value returns "<nil>", the text of a nil
    big integer, and no present value renders as that. *)
Theorem String_absent :
  decimal.String None = "<nil>" /\
  forall i : Z, decimal.String (Some i) <> "<nil>".
Proof.
  split; [reflexivity|]. intros i H.
  destruct (String_body i) as (ip & fp & Hs & _ & _ & _ & Hlen & _).
  rewrite Hs in H. apply (f_equal length) in H.
  unfold signed in H. destruct (i <? 0)%Z;
    cbn [append length] in H; rewrite !length_append in H;
    cbn [length] in H; lia.
Qed.

(** ** Round trip *)

Lemma finish_parsed (maxBitLen : Z) (neg : bool) (combinedStr : string) (d : Z) :
  finish maxBitLen neg combinedStr = Parsed d ->
  exists m, bigtext.SetString combinedStr = Some m /\
            withinBound maxBitLen m /\ d = if neg then (- m)%Z else m.
Proof.
  unfold finish. destruct (bigtext.SetString combinedStr) as [m|]; [|discriminate].
  rewrite Z.gtb_ltb.
  destruct (Z.ltb_spec (maxDecBitLen maxBitLen) (big.BitLen m)); [discriminate|].
  intros [= <-]. exists m. repeat split. exact H.
Qed.

(** Whatever the constructor returns is within the bound. *)
Lemma NewDecFromStr_withinBound (maxBitLen : Z) (s : string) (d : Z) :
  NewDecFromStr maxBitLen s = Parsed d -> withinBound maxBitLen d.
Proof.
  assert (Hfin : forall neg c, finish maxBitLen neg c = Parsed d ->
                               withinBound maxBitLen d).
  { intros neg c (m & _ & Hm & ->)%finish_parsed.
    unfold withinBound in *. destruct neg; [rewrite BitLen_opp|]; exact Hm. }
  destruct (signed_cover s) as [->|[->|(neg & body & -> & Hne & Hsign)]];
    [discriminate|discriminate|].
  destruct (countDots body) as [|[|n]] eqn:Hdots.
  - rewrite NewDecFromStr_whole; [apply Hfin|assumption..|].
    unfold noDot. rewrite Hdots. reflexivity.
  - destruct (one_point_cover body Hdots) as (ip & fp & Hb & Hip & Hfp).
    rewrite (NewDecFromStr_point maxBitLen neg body Hne Hsign ip fp Hb Hip Hfp).
    destruct ((length fp =? 0)%nat || (length ip =? 0)%nat); [discriminate|].
    destruct (18 <? length fp)%nat; [discriminate|]. apply Hfin.
  - rewrite NewDecFromStr_points; [discriminate|assumption..|lia].
Qed.

(** Parsing the rendering of a value within the bound gives the value
    back. *)
Lemma NewDecFromStr_String (maxBitLen d : Z) :
  withinBound maxBitLen d ->
  NewDecFromStr maxBitLen (decimal.String (Some d)) = Parsed d.
Proof.
  intros Hd.
  destruct (String_body d)
    as (ip & fp & Hs & Hip & Hfp & Hne & Hlen & Hnum & _).
  rewrite Hs.
  assert (Hbody : ip ++ "." ++ fp <> "")
    by (destruct ip; [contradiction|discriminate]).
  assert (Hsign : (d <? 0)%Z = false -> startsWithMinus (ip ++ "." ++ fp) = false).
  { intros _. destruct ip as [|c ip]; [contradiction|].
    apply andb_true_iff in Hip as [Hc _]. apply isDigit_not_minus in Hc.
    simpl. destruct c as [[] [] [] [] [] [] [] []]; try reflexivity; discriminate. }
  rewrite (NewDecFromStr_point maxBitLen _ _ Hbody Hsign ip fp eq_refl
             (allDigits_noDot ip Hip) (allDigits_noDot fp Hfp)).
  rewrite Hlen. cbn [Nat.eqb orb Nat.ltb Nat.leb Nat.sub zeros].
  rewrite (length_nonzero ip Hne). cbv iota.
  rewrite <- append_assoc.
  change "" with (zeros 0).
  rewrite finish_digits.
  - cbv zeta. rewrite Hnum. change (10 ^ Z.of_nat 0)%Z with 1%Z.
    rewrite Z.mul_1_r, BitLen_abs, Z.gtb_ltb.
    unfold withinBound in Hd.
    replace (maxDecBitLen maxBitLen <? big.BitLen d)%Z with false
      by (symmetry; apply Z.ltb_ge; lia).
    f_equal. destruct (Z.ltb_spec d 0); lia.
  - rewrite allDigits_append, Hip, Hfp. reflexivity.
  - destruct ip; [contradiction|discriminate].
Qed.

(** *** Canonical digits *)

(** Normalising a numeral drops leading zeros only. *)
Lemma unorm_pad (u : Decimal.uint) :
  u <> Decimal.Nil ->
  (length (NilEmpty.string_of_uint (unorm u))
   <= length (NilEmpty.string_of_uint u))%nat /\
  zeros (length (NilEmpty.string_of_uint u)
         - length (NilEmpty.string_of_uint (unorm u)))
    ++ NilEmpty.string_of_uint (unorm u)
  = NilEmpty.string_of_uint u.
Proof.
  induction u as [|u IH|u _|u _|u _|u _|u _|u _|u _|u _|u _]; intros Hne;
    [contradiction| |
     cbn [unorm nzhead]; rewrite Nat.sub_diag; split; [lia|reflexivity]..].
  destruct u as [|u'|u'|u'|u'|u'|u'|u'|u'|u'|u'];
    [split; [simpl; lia|reflexivity]|
     (destruct IH as [IHl IHe]; [discriminate|];
      change (unorm (D0 ?v)) with (unorm v);
      cbn [NilEmpty.string_of_uint length] in *;
      split; [lia|]; rewrite Nat.sub_succ_l by exact IHl;
      cbn [zeros append]; f_equal; exact IHe)..].
Qed.

Lemma allDigits_uint (t : string) :
  allDigits t = true -> exists u, NilEmpty.string_of_uint u = t.
Proof.
  induction t as [|c t IH]; [exists Decimal.Nil; reflexivity|].
  cbn [allDigits]. intros [Hc Ht]%andb_true_iff.
  destruct (IH Ht) as [u <-].
  destruct c as [[] [] [] [] [] [] [] []]; try discriminate;
    first [ exists (D0 u); reflexivity | exists (D1 u); reflexivity
          | exists (D2 u); reflexivity | exists (D3 u); reflexivity
          | exists (D4 u); reflexivity | exists (D5 u); reflexivity
          | exists (D6 u); reflexivity | exists (D7 u); reflexivity
          | exists (D8 u); reflexivity | exists (D9 u); reflexivity ].
Qed.

(** The text of the number that digits denote is these digits without
    their leading zeros. *)
Lemma MarshalText_numeral (t : string) :
  allDigits t = true -> t <> "" ->
  (length (bigtext.MarshalText (numeral t)) <= length t)%nat /\
  zeros (length t - length (bigtext.MarshalText (numeral t)))
    ++ bigtext.MarshalText (numeral t) = t.
Proof.
  intros Ht Hne. destruct (allDigits_uint t Ht) as [u <-].
  assert (Hu : u <> Decimal.Nil) by (intros ->; contradiction).
  pose proof (scan_string_of_uint u) as Hs.
  rewrite scan_allDigits in Hs by exact Ht.
  injection Hs as Hs. simpl in Hs. rewrite Hs.
  assert (Hm : bigtext.MarshalText (Z.of_N (Pos.of_uint u))
               = NilEmpty.string_of_uint (unorm u)).
  { rewrite <- DecimalPos.Unsigned.to_of.
    destruct (Pos.of_uint u); reflexivity. }
  rewrite Hm. apply unorm_pad, Hu.
Qed.

Lemma append_inv_length (a b a' b' : string) :
  a ++ b = a' ++ b' -> length b = length b' -> a = a' /\ b = b'.
Proof.
  revert a'. induction a as [|x a IH]; intros [|x' a'] H Hl; simpl in H.
  - split; [reflexivity|exact H].
  - apply (f_equal length) in H. simpl in H. rewrite length_append in H. lia.
  - apply (f_equal length) in H. simpl in H. rewrite length_append in H. lia.
  - injection H as -> H. destruct (IH a' H Hl) as [-> ->]. split; reflexivity.
Qed.

Lemma stripZeros_nonempty (s : string) : s <> "" -> stripZeros s <> "".
Proof.
  induction s as [|c s IH]; [contradiction|]. intros _. cbn [stripZeros].
  destruct (Ascii.eqb c "0" && negb (length s =? 0)%nat) eqn:H; [|discriminate].
  apply IH. intros ->. apply andb_true_iff in H as [_ H]. discriminate.
Qed.

(** Normalising a numeral is stripping the zeros of its text. *)
Lemma string_of_unorm (u : Decimal.uint) :
  u <> Decimal.Nil ->
  NilEmpty.string_of_uint (unorm u) = stripZeros (NilEmpty.string_of_uint u).
Proof.
  induction u as [|u IH|u _|u _|u _|u _|u _|u _|u _|u _|u _]; intros Hne;
    [contradiction| |reflexivity..].
  destruct u as [|u'|u'|u'|u'|u'|u'|u'|u'|u'|u']; [reflexivity|..];
    change (unorm (D0 ?v)) with (unorm v); rewrite IH by discriminate;
    reflexivity.
Qed.

Lemma MarshalText_stripZeros (t : string) :
  allDigits t = true -> t <> "" ->
  bigtext.MarshalText (numeral t) = stripZeros t.
Proof.
  intros Ht Hne. destruct (allDigits_uint t Ht) as [u <-].
  assert (Hu : u <> Decimal.Nil) by (intros ->; contradiction).
  pose proof (scan_string_of_uint u) as Hs.
  rewrite scan_allDigits in Hs by exact Ht.
  injection Hs as Hs. simpl in Hs. rewrite Hs.
  rewrite <- (string_of_unorm u Hu), <- DecimalPos.Unsigned.to_of.
  destruct (Pos.of_uint u); reflexivity.
Qed.

(** Integer digits that denote zero strip to "0"; others keep what
    follows them. *)
Lemma stripZeros_zero (ip : string) :
  allDigits ip = true -> ip <> "" -> numeral ip = 0%Z -> stripZeros ip = "0".
Proof.
  intros Hip Hne Hz.
  rewrite <- (MarshalText_stripZeros ip Hip Hne), Hz. reflexivity.
Qed.

Lemma numeral_zero_tail (c : ascii) (s : string) :
  numeral (String c s) = 0%Z -> digitValue c = 0%Z /\ numeral s = 0%Z.
Proof.
  cbn [numeral]. intros H.
  pose proof (digitValue_range c). pose proof (numeral_nonneg s).
  assert (0 < 10 ^ Z.of_nat (length s))%Z by (apply Z.pow_pos_nonneg; lia).
  nia.
Qed.

Lemma digitValue_zero (c : ascii) :
  isDigit c = true -> Ascii.eqb c "0" = true -> digitValue c = 0%Z.
Proof. intros _ H. apply Ascii.eqb_eq in H. subst c. reflexivity. Qed.

Lemma stripZeros_append (ip rest : string) :
  allDigits ip = true -> numeral ip <> 0%Z ->
  stripZeros (ip ++ rest) = stripZeros ip ++ rest.
Proof.
  induction ip as [|c ip IH]; [intros _ H; contradiction H; reflexivity|].
  intros Hall Hnz. cbn [append stripZeros].
  apply andb_true_iff in Hall as [Hc Hip].
  destruct (Ascii.eqb c "0") eqn:Hc0; [|reflexivity].
  assert (Hnz' : numeral ip <> 0%Z).
  { intros Hz. apply Hnz. cbn [numeral].
    rewrite (digitValue_zero c Hc Hc0), Hz. lia. }
  assert (Hne : ip <> "") by (intros ->; apply Hnz'; reflexivity).
  rewrite length_append.
  destruct ip as [|c' ip']; [contradiction|].
  cbn [length Nat.add Nat.eqb negb andb].
  apply IH; assumption.
Qed.

(** The constructor reads a decimal text as its combined digits. *)
Lemma NewDecFromStr_decimalText (maxBitLen : Z) (neg : bool) (ip fp : string) :
  allDigits ip = true -> ip <> "" -> allDigits fp = true ->
  (length fp <= 18)%nat ->
  NewDecFromStr maxBitLen (decimalText neg ip fp) =
    finish maxBitLen neg (ip ++ fp ++ zeros (18 - length fp)).
Proof.
  intros Hip Hne Hfp Hlen. unfold decimalText.
  assert (Hminus : forall rest, startsWithMinus (ip ++ rest) = false).
  { intros rest. destruct ip as [|c ip]; [contradiction|].
    apply andb_true_iff in Hip as [Hc _]. apply isDigit_not_minus in Hc.
    simpl. destruct c as [[] [] [] [] [] [] [] []]; try reflexivity; discriminate. }
  destruct (Nat.eqb_spec (length fp) 0) as [Hz|Hnz].
  - apply length_zero_iff in Hz. subst fp.
    rewrite NewDecFromStr_whole; [reflexivity|exact Hne| |apply allDigits_noDot, Hip].
    intros _. rewrite <- (append_nil_r ip). apply Hminus.
  - rewrite (NewDecFromStr_point maxBitLen neg (ip ++ "." ++ fp)
               ltac:(destruct ip; [contradiction|discriminate])
               ltac:(intros _; apply Hminus)
               ip fp eq_refl (allDigits_noDot ip Hip) (allDigits_noDot fp Hfp)).
    replace (length fp =? 0)%nat with false by (symmetry; apply Nat.eqb_neq, Hnz).
    rewrite (length_nonzero ip Hne).
    replace (18 <? length fp)%nat with false by (symmetry; apply Nat.ltb_ge, Hlen).
    reflexivity.
Qed.

(** The rendering of what the constructor made of a decimal text is the
    canonical rendering of that text. *)
Lemma String_canonical (maxBitLen : Z) (neg : bool) (ip fp : string) (d : Z) :
  allDigits ip = true -> ip <> "" ->
  allDigits fp = true -> (length fp <= 18)%nat ->
  NewDecFromStr maxBitLen (decimalText neg ip fp) = Parsed d ->
  decimal.String (Some d) = canonical18 neg ip fp.
Proof.
  intros Hip Hne Hfp Hlen Hparse.
  rewrite NewDecFromStr_decimalText in Hparse by assumption.
  set (fp' := fp ++ zeros (18 - length fp)) in *.
  assert (Hfp' : allDigits fp' = true)
    by (unfold fp'; rewrite allDigits_append, Hfp, allDigits_zeros; reflexivity).
  assert (Hlen' : length fp' = 18%nat)
    by (unfold fp'; rewrite length_append, length_zeros; lia).
  assert (Hall : allDigits (ip ++ fp') = true)
    by (rewrite allDigits_append, Hip, Hfp'; reflexivity).
  assert (Hne' : ip ++ fp' <> "") by (destruct ip; [contradiction|discriminate]).
  apply finish_parsed in Hparse as (m & Hset & _ & Hd).
  rewrite SetString_allDigits in Hset by assumption.
  injection Hset as Hm.
  assert (Hm0 : (0 <= m)%Z) by (rewrite <- Hm; apply numeral_nonneg).
  assert (Hscale : m = (numeral (ip ++ fp) * 10 ^ Z.of_nat (18 - length fp))%Z).
  { rewrite <- Hm. unfold fp'.
    rewrite <- append_assoc, numeral_trailing_zeros. reflexivity. }
  assert (Hpow : (0 < 10 ^ Z.of_nat (18 - length fp))%Z)
    by (apply Z.pow_pos_nonneg; lia).
  assert (Hneg : (d <? 0)%Z = neg && negb (numeral (ip ++ fp) =? 0)%Z).
  { pose proof (numeral_nonneg (ip ++ fp)).
    destruct neg; cbn [andb].
    - destruct (Z.eqb_spec (numeral (ip ++ fp)) 0) as [E|E]; cbn [negb].
      + apply Z.ltb_ge. rewrite E in Hscale. lia.
      + apply Z.ltb_lt. nia.
    - apply Z.ltb_ge. lia. }
  assert (Habs : Z.abs d = numeral (ip ++ fp'))
    by (rewrite Hm; destruct neg; lia).
  destruct (String_body d)
    as (ip0 & fp0 & Hs & _ & _ & _ & Hlen0 & _ & Hcases).
  rewrite Hs, Hneg. unfold canonical18. fold fp'. f_equal.
  rewrite Habs in Hcases.
  destruct (Z.eq_dec (numeral ip) 0) as [Hz|Hnz].
  - rewrite (stripZeros_zero ip Hip Hne Hz).
    assert (Hnum : numeral (ip ++ fp') = numeral fp')
      by (rewrite numeral_append, Hz; lia).
    rewrite Hnum in Hcases.
    destruct (MarshalText_numeral fp' Hfp'
                ltac:(intros E; rewrite E in Hlen'; discriminate))
      as [Hl He].
    rewrite Hlen' in Hl, He.
    destruct Hcases as [(-> & _ & ->)|[Hgt _]]; [|lia].
    rewrite He. reflexivity.
  - rewrite (MarshalText_stripZeros _ Hall Hne') in Hcases.
    rewrite (stripZeros_append ip fp' Hip Hnz) in Hcases.
    pose proof (stripZeros_nonempty ip Hne) as Hsne.
    destruct Hcases as [(_ & Hle & _)|[_ He]].
    + rewrite length_append in Hle.
      destruct (stripZeros ip); [contradiction|]. cbn [length] in Hle. lia.
    + apply append_inv_length in He as [-> ->]; [reflexivity|lia].
Qed.

(** C8: parsing a decimal text (optional "-", integer digits, and
    optionally a point and at most 18 fractional digits) and rendering
    the result gives the canonical rendering of the text with exactly 18
    fractional digits; parsing the rendering of a parsed value gives the
    same value; and for every present value [d] within the bound,
    parsing [String d] succeeds with [d]. *)
Theorem String_NewDecFromStr_round_trip (maxBitLen : Z) :
  (forall neg ip fp d,
     allDigits ip = true -> ip <> "" ->
     allDigits fp = true -> (length fp <= 18)%nat ->
     NewDecFromStr maxBitLen (decimalText neg ip fp) = Parsed d ->
     decimal.String (Some d) = canonical18 neg ip fp) /\
  (forall s d,
     NewDecFromStr maxBitLen s = Parsed d ->
     NewDecFromStr maxBitLen (decimal.String (Some d)) = Parsed d) /\
  (forall d,
     withinBound maxBitLen d ->
     NewDecFromStr maxBitLen (decimal.String (Some d)) = Parsed d).
Proof.
  split; [|split].
  - intros neg ip fp d. apply String_canonical.
  - intros s d H. apply NewDecFromStr_String.
    exact (NewDecFromStr_withinBound maxBitLen s d H).
  - apply NewDecFromStr_String.
Qed.

Lemma String_NewDecFromStr_round_trip_witness :
  decimal.String (Some (-123456000000000000000)%Z) = "-123.456000000000000000" /\
  decimal.String (Some 7500000000000000000%Z) = "7.500000000000000000" /\
  NewDecFromStr 256 (decimal.String (Some (-123456000000000000000)%Z))
    = Parsed (-123456000000000000000)%Z /\
  NewDecFromStr 256 (decimal.String (Some (2 ^ 315 - 1)%Z))
    = Parsed (2 ^ 315 - 1)%Z.
Proof.
  destruct (String_NewDecFromStr_round_trip 256) as (Hcanon & Hparse & Hbound).
  split; [|split; [|split]].
  - apply (Hcanon true "123" "456");
      [reflexivity|discriminate|reflexivity|simpl; lia|vm_compute; reflexivity].
  - apply (Hcanon false "007" "5");
      [reflexivity|discriminate|reflexivity|simpl; lia|vm_compute; reflexivity].
  - apply (Hparse "-123.456"). vm_compute. reflexivity.
  - apply Hbound. vm_compute. discriminate.
Defined.

(** ** Root approximation *)

Section Root.

Variable maxBitLen : Z.

Lemma checked_panic (x : Z) (p : panic) :
  panicked (checked maxBitLen x) = Some p -> p = IntOverflow.
Proof.
  unfold checked. simpl. destruct (overflows maxBitLen x); congruence.
Qed.

Lemma immut_checked_panic (x : Z) (p : panic) :
  immut (checked maxBitLen x) = Panics p -> p = IntOverflow.
Proof.
  unfold immut. destruct (panicked (checked maxBitLen x)) eqn:H;
    [|discriminate].
  intros [= <-]. exact (checked_panic x p0 H).
Qed.

(** Inside [Power] nothing but the overflow check can panic. *)
Lemma powerLoop_panic (i : positive) (d tmp : Z) (p : panic) :
  powerLoop maxBitLen i d tmp = Panics p -> p = IntOverflow.
Proof.
  revert d tmp. induction i as [i IH|i IH|]; intros d tmp; simpl;
    unfold andThen, MulMut.
  - destruct (immut (checked maxBitLen (chopPrecisionAndRound (tmp * d))))
      eqn:H1; [|intros [= <-]; exact (immut_checked_panic _ _ H1)].
    destruct (immut (checked maxBitLen (chopPrecisionAndRound (d * d))))
      eqn:H2; [apply IH|intros [= <-]; exact (immut_checked_panic _ _ H2)].
  - destruct (immut (checked maxBitLen (chopPrecisionAndRound (d * d))))
      eqn:H2; [apply IH|intros [= <-]; exact (immut_checked_panic _ _ H2)].
  - discriminate.
Qed.

Lemma Power_panic (d : Z) (power : N) (p : panic) :
  Power maxBitLen d power = Panics p -> p = IntOverflow.
Proof.
  destruct power as [|i]; simpl; [discriminate|]. unfold andThen.
  destruct (powerLoop maxBitLen i (Clone d) OneDec) as [[d' tmp]|q] eqn:H.
  - apply immut_checked_panic.
  - intros [= <-]. exact (powerLoop_panic _ _ _ _ H).
Qed.

Lemma int64_of_uint64_nonzero (root : N) :
  (root <> 0)%N -> (root < 2 ^ 64)%N -> int64_of_uint64 root <> 0%Z.
Proof.
  intros H0 H64. unfold int64_of_uint64.
  change (2 ^ 64)%N with 18446744073709551616%N in H64.
  change (2 ^ 63)%N with 9223372036854775808%N.
  change (2 ^ 64)%Z with 18446744073709551616%Z.
  destruct (N.ltb_spec root 9223372036854775808); lia.
Qed.

(** A turn of the loop can only be interrupted by an overflow: the
    divisors are never zero. *)
Lemma approxRootStep_panic (d : Z) (root : N) (guess delta guess' delta' : Z)
      (p : panic) :
  (root <> 0)%N -> (root < 2 ^ 64)%N ->
  approxRootStep maxBitLen d root guess delta = (guess', delta', Some p) ->
  p = IntOverflow.
Proof.
  intros H0 H64. unfold approxRootStep.
  destruct (Power maxBitLen guess (uint64_pred root)) as [prev|q] eqn:HP;
    [|intros [= _ _ <-]; exact (Power_panic _ _ _ HP)].
  set (prev' := if IsZero prev then SmallestDec else prev).
  assert (Hprev : prev' <> 0%Z).
  { unfold prev', IsZero, big.Sign, SmallestDec, oneInt.
    destruct (Z.eqb_spec (Z.sgn prev) 0); [discriminate|].
    intros ->. contradiction. }
  unfold QuoMut. destruct (Z.eqb_spec prev' 0); [contradiction|].
  match goal with
  | |- context [panicked (checked maxBitLen ?x)] =>
      destruct (panicked (checked maxBitLen x)) eqn:H1;
        [intros [= _ _ <-]; exact (checked_panic _ _ H1)|]
  end.
  unfold SubMut.
  match goal with
  | |- context [panicked (checked maxBitLen ?x)] =>
      destruct (panicked (checked maxBitLen x)) eqn:H2;
        [intros [= _ _ <-]; exact (checked_panic _ _ H2)|]
  end.
  unfold QuoInt64Mut.
  destruct (Z.eqb_spec (int64_of_uint64 root) 0) as [E|_];
    [exfalso; exact (int64_of_uint64_nonzero root H0 H64 E)|].
  cbn [panicked store]. unfold AddMut.
  intros [= _ _ H4]. exact (checked_panic _ _ H4).
Qed.

Section Loop.

Variables (d : Z) (root : N).

(** The loop after [n] turns goes on with what budget is left. *)
Lemma approxRootLoop_turns (n budget : nat) (guess delta guess' delta' : Z) :
  turnsFrom maxBitLen n d root guess delta = Some (guess', delta') ->
  approxRootLoop maxBitLen (n + budget) d root guess delta
  = approxRootLoop maxBitLen budget d root guess' delta'.
Proof.
  revert guess delta. induction n as [|n IH]; intros guess delta.
  - intros [= <- <-]. reflexivity.
  - cbn [turnsFrom Nat.add approxRootLoop].
    destruct (GT (Abs delta) SmallestDec); [|discriminate].
    destruct (approxRootStep maxBitLen d root guess delta)
      as [[g1 d1] [q|]]; [discriminate|].
    apply IH.
Qed.

(** With the budget used up the guess is returned, converged or
    not. *)
Lemma approxRootLoop_exhausted (n : nat) (guess delta guess' delta' : Z) :
  turnsFrom maxBitLen n d root guess delta = Some (guess', delta') ->
  approxRootLoop maxBitLen n d root guess delta = (guess', None).
Proof.
  intros H. rewrite <- (Nat.add_0_r n) at 1.
  rewrite (approxRootLoop_turns n 0 _ _ _ _ H). simpl.
  destruct (GT (Abs delta') SmallestDec); reflexivity.
Qed.

Lemma approxRootLoop_interrupted (n budget : nat)
      (guess delta g1 d1 g2 d2 : Z) (p : panic) :
  (n < budget)%nat ->
  turnsFrom maxBitLen n d root guess delta = Some (g1, d1) ->
  GT (Abs d1) SmallestDec = true ->
  approxRootStep maxBitLen d root g1 d1 = (g2, d2, Some p) ->
  approxRootLoop maxBitLen budget d root guess delta = (g2, Some p).
Proof.
  intros Hn Ht Hgt Hstep.
  replace budget with (n + S (budget - S n))%nat by lia.
  rewrite (approxRootLoop_turns n _ _ _ _ _ Ht).
  cbn [approxRootLoop]. rewrite Hgt, Hstep. reflexivity.
Qed.

Lemma approxRootLoop_converged (n budget : nat)
      (guess delta g1 d1 : Z) :
  (n <= budget)%nat ->
  turnsFrom maxBitLen n d root guess delta = Some (g1, d1) ->
  GT (Abs d1) SmallestDec = false ->
  approxRootLoop maxBitLen budget d root guess delta = (g1, None).
Proof.
  intros Hn Ht Hgt.
  replace budget with (n + (budget - n))%nat by lia.
  rewrite (approxRootLoop_turns n _ _ _ _ _ Ht).
  destruct (budget - n)%nat; cbn [approxRootLoop]; rewrite Hgt; reflexivity.
Qed.

End Loop.

(** [ApproxRoot] is the loop on the magnitude, the sign put back on the
    guess and a recovered panic turned into an error. *)
Lemma ApproxRoot_loop (d : Z) (root : N) :
  entersLoop (Z.abs d) root = true ->
  ApproxRoot maxBitLen d root =
    let '(guess, p) :=
      approxRootLoop maxBitLen maxApproxRootIterations (Z.abs d) root
        OneDec OneDec in
    (if (d <? 0)%Z then (- guess)%Z else guess, option_map recovered p).
Proof.
  unfold entersLoop. intros [H1 H2]%andb_true_iff.
  apply negb_true_iff in H1, H2.
  unfold ApproxRoot, IsNegative, Neg. rewrite Sign_neg_iff.
  destruct (Z.ltb_spec d 0) as [Hneg|Hpos]; unfold approxRootNonNeg.
  - replace (- d)%Z with (Z.abs d) by lia. rewrite H1, H2.
    destruct (approxRootLoop maxBitLen maxApproxRootIterations (Z.abs d)
                root OneDec OneDec); reflexivity.
  - replace (Z.abs d) with d in * by lia. rewrite H1, H2.
    destruct (approxRootLoop maxBitLen maxApproxRootIterations d
                root OneDec OneDec); reflexivity.
Qed.

End Root.

(** C7: [ApproxRoot] always returns.  On an absent receiver the run-time
    panic is recovered into an error.  When, after some turns of the
    Newton loop, a turn is interrupted by a panic, that panic is an
    overflow and the call returns the guess as it stands with the error
    "out of bounds".  When the 100 turns of the budget have all been
    made, the guess is returned with no error, whether or not [delta] has
    come down to the smallest unit. *)
Theorem ApproxRoot_recovers_overflow (maxBitLen : Z) :
  (forall root,
     ApproxRootDec maxBitLen None root = (None, Some ErrRuntime)) /\
  (forall d root n guess delta guess' delta' p,
     (root < 2 ^ 64)%N ->
     entersLoop (Z.abs d) root = true ->
     (n < maxApproxRootIterations)%nat ->
     turnsFrom maxBitLen n (Z.abs d) root OneDec OneDec = Some (guess, delta) ->
     GT (Abs delta) SmallestDec = true ->
     approxRootStep maxBitLen (Z.abs d) root guess delta
       = (guess', delta', Some p) ->
     p = IntOverflow /\
     ApproxRoot maxBitLen d root =
       (if (d <? 0)%Z then (- guess')%Z else guess', Some ErrOutOfBounds)) /\
  (forall d root guess delta,
     entersLoop (Z.abs d) root = true ->
     turnsFrom maxBitLen maxApproxRootIterations (Z.abs d) root OneDec OneDec
       = Some (guess, delta) ->
     ApproxRoot maxBitLen d root =
       (if (d <? 0)%Z then (- guess)%Z else guess, None)).
Proof.
  split; [reflexivity|]. split.
  - intros d root n guess delta guess' delta' p H64 Hin Hn Ht Hgt Hstep.
    assert (Hroot : (root <> 0)%N).
    { unfold entersLoop in Hin. apply andb_true_iff in Hin as [_ H0].
      apply negb_true_iff, N.eqb_neq in H0. exact H0. }
    pose proof (approxRootStep_panic maxBitLen _ _ _ _ _ _ _ Hroot H64 Hstep)
      as ->.
    split; [reflexivity|].
    rewrite (ApproxRoot_loop maxBitLen d root Hin).
    rewrite (approxRootLoop_interrupted maxBitLen (Z.abs d) root n
               maxApproxRootIterations _ _ _ _ _ _ _ Hn Ht Hgt Hstep).
    reflexivity.
  - intros d root guess delta Hin Ht.
    rewrite (ApproxRoot_loop maxBitLen d root Hin).
    rewrite (approxRootLoop_exhausted maxBitLen (Z.abs d) root _ _ _ _ _ Ht).
    reflexivity.
Qed.

Lemma ApproxRoot_recovers_overflow_witness :
  snd (ApproxRoot 256 (- (2 ^ 315 - 1)) 3) = Some ErrOutOfBounds /\
  snd (ApproxRoot 256 (2 ^ 315 - 1) 2) = None.
Proof.
  destruct (ApproxRoot_recovers_overflow 256) as (_ & Hpanic & Hbudget).
  split.
  - destruct (turnsFrom 256 1 (Z.abs (- (2 ^ 315 - 1))) 3 OneDec OneDec)
      as [[guess delta]|] eqn:Ht; [|vm_compute in Ht; discriminate].
    destruct (approxRootStep 256 (Z.abs (- (2 ^ 315 - 1))) 3 guess delta)
      as [[guess' delta'] [p|]] eqn:Hstep;
      [|vm_compute in Ht; injection Ht as <- <-;
        vm_compute in Hstep; discriminate].
    destruct (Hpanic (- (2 ^ 315 - 1))%Z 3%N 1%nat guess delta guess' delta' p)
      as [_ ->];
      [reflexivity|reflexivity|unfold maxApproxRootIterations; lia|exact Ht
      |vm_compute in Ht; injection Ht as <- <-; reflexivity|exact Hstep|].
    reflexivity.
  - destruct (turnsFrom 256 maxApproxRootIterations (Z.abs (2 ^ 315 - 1)) 2
                OneDec OneDec) as [[guess delta]|] eqn:Ht;
      [|vm_compute in Ht; discriminate].
    rewrite (Hbudget (2 ^ 315 - 1)%Z 2%N guess delta eq_refl Ht).
    reflexivity.
Defined.

(** ** Wire text *)

(** C2 fails on the code: for empty input [Unmarshal] returns no error,
    but its assignment of nil reaches only the method's own pointer
    variable, so the caller's [Dec] is what it was; a receiver holding a
    present value still holds it afterwards. *)
Theorem Unmarshal_empty_leaves_receiver
        (maxBitLen : Z) (UnmarshalText : Z -> string -> Z * bool)
        (recv : Dec) :
  Unmarshal maxBitLen UnmarshalText recv "" = mkUnmarshalled true recv None /\
  receiver (Unmarshal maxBitLen UnmarshalText (Some 5%Z) "") = Some 5%Z /\
  receiver (Unmarshal maxBitLen UnmarshalText (Some 5%Z) "") <> None.
Proof. repeat split. discriminate. Qed.

(** ** Sortable bytes *)

(** *** Digits and byte order *)

Lemma digitValue_ascii (c : ascii) :
  isDigit c = true -> digitValue c = (Z.of_N (N_of_ascii c) - 48)%Z.
Proof.
  unfold isDigit, digitValue, bigtext.digit.
  destruct ((48 <=? Z.of_N (N_of_ascii c))%Z
            && (Z.of_N (N_of_ascii c) <=? 57)%Z); [reflexivity|discriminate].
Qed.

Lemma compare_digits (c c' : ascii) :
  isDigit c = true -> isDigit c' = true ->
  Ascii.compare c c' = (digitValue c ?= digitValue c')%Z.
Proof.
  intros Hc Hc'. rewrite (digitValue_ascii c Hc), (digitValue_ascii c' Hc').
  unfold Ascii.compare. rewrite <- N2Z.inj_compare.
  destruct (Z.compare_spec (Z.of_N (N_of_ascii c)) (Z.of_N (N_of_ascii c')));
    symmetry;
    [apply Z.compare_eq_iff|apply Z.compare_lt_iff|apply Z.compare_gt_iff]; lia.
Qed.

Lemma numeral_bound (s : string) :
  allDigits s = true -> (numeral s < 10 ^ Z.of_nat (length s))%Z.
Proof.
  induction s as [|c s IH]; [reflexivity|].
  cbn [allDigits numeral]. intros [Hc Hs]%andb_true_iff.
  specialize (IH Hs). pose proof (digitValue_range c).
  change (length (String c s)) with (S (length s)).
  rewrite Nat2Z.inj_succ, Z.pow_succ_r by lia. nia.
Qed.

(** On digit strings of one length the byte order is the order of the
    numbers. *)
Lemma compare_numeral (s t : string) :
  allDigits s = true -> allDigits t = true -> length s = length t ->
  String.compare s t = (numeral s ?= numeral t)%Z.
Proof.
  revert t. induction s as [|c s IH]; intros [|c' t] Hs Ht Hl;
    try discriminate; [reflexivity|].
  cbn [allDigits] in Hs, Ht.
  apply andb_true_iff in Hs as [Hc Hs]. apply andb_true_iff in Ht as [Hc' Ht].
  injection Hl as Hl.
  cbn [String.compare numeral]. rewrite (compare_digits c c' Hc Hc'), Hl.
  pose proof (numeral_bound s Hs) as Bs. pose proof (numeral_bound t Ht) as Bt.
  pose proof (numeral_nonneg s). pose proof (numeral_nonneg t).
  rewrite Hl in Bs. set (w := (10 ^ Z.of_nat (length t))%Z) in *.
  destruct (Z.compare_spec (digitValue c) (digitValue c')) as [E|L|G].
  - rewrite E, (IH t Hs Ht Hl).
    symmetry. apply Z.add_compare_mono_l.
  - symmetry. apply Z.compare_lt_iff. nia.
  - symmetry. apply Z.compare_gt_iff. nia.
Qed.

Lemma compare_append (a a' b b' : string) :
  length a = length a' ->
  String.compare (a ++ b) (a' ++ b') =
    match String.compare a a' with
    | Eq => String.compare b b'
    | c => c
    end.
Proof.
  revert a'. induction a as [|x a IH]; intros [|x' a'] Hl; try discriminate;
    [reflexivity|].
  injection Hl as Hl. cbn [append String.compare].
  destruct (Ascii.compare x x'); [apply IH, Hl|reflexivity..].
Qed.

Lemma compare_refl (s : string) : String.compare s s = Eq.
Proof.
  induction s as [|c s IH]; [reflexivity|]. cbn [String.compare].
  unfold Ascii.compare. rewrite N.compare_refl. exact IH.
Qed.

(** The point between two halves of equal lengths does not change the
    order. *)
Lemma compare_pointed (i f i' f' : string) :
  length i = length i' ->
  String.compare (i ++ "." ++ f) (i' ++ "." ++ f')
  = String.compare (i ++ f) (i' ++ f').
Proof.
  intros Hl.
  rewrite (compare_append i i' ("." ++ f) ("." ++ f') Hl).
  rewrite (compare_append i i' f f' Hl).
  destruct (String.compare i i'); [|reflexivity..].
  cbn [append String.compare]. change (Ascii.compare "." ".") with Eq.
  reflexivity.
Qed.

Lemma digit_after_minus (c : ascii) :
  isDigit c = true -> Ascii.compare "-" c = Lt.
Proof. destruct c as [[] [] [] [] [] [] [] []]; try discriminate; reflexivity. Qed.

Lemma digit_before_m (c : ascii) :
  isDigit c = true -> Ascii.compare c "m" = Lt.
Proof. destruct c as [[] [] [] [] [] [] [] []]; try discriminate; reflexivity. Qed.

(** *** The text of a magnitude has no leading zero *)

Lemma length_stripZeros (s : string) : (length (stripZeros s) <= length s)%nat.
Proof.
  induction s as [|c s IH]; [apply le_n|]. cbn [stripZeros].
  destruct (Ascii.eqb c "0" && negb (length s =? 0)%nat); cbn [length]; lia.
Qed.

Lemma digitValue_positive (c : ascii) :
  isDigit c = true -> Ascii.eqb c "0" = false -> (1 <= digitValue c)%Z.
Proof.
  intros Hc H0. pose proof (digitValue_range c) as Hr.
  assert (digitValue c <> 0%Z); [|lia]. intros Hz.
  rewrite (digitValue_ascii c Hc) in Hz.
  apply Ascii.eqb_neq in H0. apply H0.
  rewrite <- (ascii_N_embedding c).
  replace (N_of_ascii c) with 48%N by lia. reflexivity.
Qed.

Lemma MarshalText_lower (a : Z) :
  (0 < a)%Z ->
  (10 ^ (Z.of_nat (length (bigtext.MarshalText a)) - 1) <= a)%Z.
Proof.
  intros Ha.
  destruct (MarshalText_magnitude a ltac:(lia)) as (Hdig & Hne & Hnum).
  pose proof (MarshalText_stripZeros _ Hdig Hne) as Hfix.
  rewrite Hnum in Hfix.
  destruct (bigtext.MarshalText a) as [|c r]; [contradiction|].
  cbn [stripZeros] in Hfix. cbn [allDigits] in Hdig.
  apply andb_true_iff in Hdig as [Hc Hr].
  destruct (Ascii.eqb c "0") eqn:Hc0.
  - destruct (Nat.eqb_spec (length r) 0) as [Hl|Hl]; cbn [negb andb] in Hfix.
    + apply length_zero_iff in Hl. subst r.
      apply Ascii.eqb_eq in Hc0. subst c. simpl in Hnum. lia.
    + pose proof (length_stripZeros r) as Hle. rewrite <- Hfix in Hle.
      cbn [length] in Hle. lia.
  - pose proof (digitValue_positive c Hc Hc0).
    pose proof (numeral_nonneg r).
    cbn [numeral] in Hnum. change (length (String c r)) with (S (length r)).
    replace (Z.of_nat (S (length r)) - 1)%Z with (Z.of_nat (length r)) by lia.
    assert (0 < 10 ^ Z.of_nat (length r))%Z by (apply Z.pow_pos_nonneg; lia).
    nia.
Qed.

Lemma MarshalText_length (a : Z) (n : nat) :
  (0 <= a < 10 ^ Z.of_nat n)%Z -> (1 <= n)%nat ->
  (length (bigtext.MarshalText a) <= n)%nat.
Proof.
  intros [H0 Hn] H1. destruct (Z.eq_dec a 0) as [->|Hnz]; [simpl; lia|].
  pose proof (MarshalText_lower a ltac:(lia)) as Hl.
  destruct (Nat.le_gt_cases (length (bigtext.MarshalText a)) n) as [|Hgt];
    [assumption|].
  assert (10 ^ Z.of_nat n <= 10 ^ (Z.of_nat (length (bigtext.MarshalText a)) - 1))%Z
    by (apply Z.pow_le_mono_r; lia).
  lia.
Qed.

(** *** The keys *)

Lemma Equal_eqb (x y : Z) : Equal x y = (x =? y)%Z.
Proof.
  unfold Equal, big.Cmp.
  destruct (Z.compare_spec x y), (Z.eqb_spec x y); try reflexivity; lia.
Qed.

Lemma LTE_leb (x y : Z) : LTE x y = (x <=? y)%Z.
Proof.
  unfold LTE, big.Cmp.
  destruct (Z.compare_spec x y), (Z.leb_spec x y); try reflexivity; lia.
Qed.

Section SortableOrder.

Variable maxBitLen : Z.
Hypothesis bound_large : (61 <= maxBitLen)%Z.

Lemma MaxSortableDec_value : MaxSortableDec maxBitLen = Return maxSortable.
Proof.
  unfold MaxSortableDec, Quo, ImmutOp, QuoMut, Clone.
  change (SmallestDec =? 0)%Z with false. cbv iota.
  change (chopPrecisionAndRound
            (Z.quot (OneDec * precisionReuse * precisionReuse) SmallestDec))
    with 1000000000000000000000000000000000000%Z.
  unfold immut, checked, overflows. cbn [panicked store].
  change (big.BitLen 1000000000000000000000000000000000000) with 120%Z.
  unfold maxDecBitLen, decimalTruncateBits, DecimalPrecisionBits.
  rewrite Z.gtb_ltb.
  replace (maxBitLen + (60 - 1) <? 120)%Z with false
    by (symmetry; apply Z.ltb_ge; lia).
  reflexivity.
Qed.

(** The two ends of the range have keys of their own. *)
Lemma SortableDecBytes_ends :
  SortableDecBytes maxBitLen maxSortable = Return "max" /\
  SortableDecBytes maxBitLen (- maxSortable) = Return "--".
Proof.
  unfold SortableDecBytes. rewrite MaxSortableDec_value. split; reflexivity.
Qed.

Lemma SortableDecBytes_outside (d : Z) :
  (maxSortable < Z.abs d)%Z ->
  SortableDecBytes maxBitLen d = Panics NotSortable.
Proof.
  intros H. unfold SortableDecBytes. rewrite MaxSortableDec_value.
  cbn [andThen]. unfold ValidSortableDec, Abs. rewrite LTE_leb.
  replace (Z.abs d <=? maxSortable)%Z with false
    by (symmetry; apply Z.leb_gt; exact H).
  reflexivity.
Qed.

(** Strictly inside the range the key is the padded rendering of the
    magnitude, after a "-" for a negative value. *)
Lemma SortableDecBytes_inside (d : Z) :
  (Z.abs d < maxSortable)%Z ->
  SortableDecBytes maxBitLen d =
    Return (signed (d <? 0)%Z
              (sprintf0 37 (decimal.String (Some (Z.abs d))))).
Proof.
  intros H. unfold SortableDecBytes. rewrite MaxSortableDec_value.
  cbn [andThen]. unfold ValidSortableDec, Abs, Neg, IsNegative.
  rewrite LTE_leb, !Equal_eqb, Sign_neg_iff.
  replace (Z.abs d <=? maxSortable)%Z with true
    by (symmetry; apply Z.leb_le; lia).
  replace (d =? maxSortable)%Z with false by (symmetry; apply Z.eqb_neq; lia).
  replace (d =? - maxSortable)%Z with false by (symmetry; apply Z.eqb_neq; lia).
  cbn [negb]. change (Z.to_nat (Precision * 2 + 1)) with 37%nat.
  destruct (Z.ltb_spec d 0); [reflexivity|].
  rewrite Z.abs_eq by assumption. reflexivity.
Qed.

End SortableOrder.

(** The padded rendering of a magnitude below the bound: 18 integer
    digits, the point, 18 fractional digits, together denoting the
    magnitude. *)
Lemma padded_rendering (a : Z) :
  (0 <= a < maxSortable)%Z ->
  exists ip fp,
    sprintf0 37 (decimal.String (Some a)) = ip ++ "." ++ fp /\
    allDigits ip = true /\ allDigits fp = true /\
    length ip = 18%nat /\ length fp = 18%nat /\
    numeral (ip ++ fp) = a.
Proof.
  intros [H0 Hmax].
  destruct (String_body a)
    as (ip & fp & Hs & Hip & Hfp & Hne & Hlen & Hnum & Hcases).
  replace (a <? 0)%Z with false in Hs by (symmetry; apply Z.ltb_ge; exact H0).
  rewrite Z.abs_eq in Hnum, Hcases by exact H0. cbn [signed] in Hs.
  assert (Hip18 : (length ip <= 18)%nat).
  { destruct Hcases as [(-> & _)|[_ He]]; [simpl; lia|].
    pose proof (MarshalText_length a 36 ltac:(split; [exact H0|exact Hmax])
                  ltac:(lia)) as Hl.
    rewrite <- He, length_append in Hl. lia. }
  exists (zeros (18 - length ip) ++ ip), fp.
  split.
  { rewrite Hs. unfold sprintf0.
    rewrite !length_append, Hlen. cbn [length].
    replace (37 - (length ip + (1 + 18)))%nat with (18 - length ip)%nat by lia.
    rewrite append_assoc. reflexivity. }
  split; [rewrite allDigits_append, allDigits_zeros; exact Hip|].
  split; [exact Hfp|]. split; [rewrite length_append, length_zeros; lia|].
  split; [exact Hlen|].
  rewrite append_assoc, numeral_leading_zeros. exact Hnum.
Qed.

(** Keys of two magnitudes compare as the magnitudes do. *)
Lemma padded_rendering_compare (a b : Z) :
  (0 <= a < maxSortable)%Z -> (0 <= b < maxSortable)%Z ->
  String.compare (sprintf0 37 (decimal.String (Some a)))
                 (sprintf0 37 (decimal.String (Some b)))
  = (a ?= b)%Z.
Proof.
  intros Ha Hb.
  destruct (padded_rendering a Ha) as (ia & fa & -> & Hia & Hfa & Lia & Lfa & <-).
  destruct (padded_rendering b Hb) as (ib & fb & -> & Hib & Hfb & Lib & Lfb & <-).
  rewrite compare_pointed by congruence.
  apply compare_numeral.
  - rewrite allDigits_append, Hia, Hfa. reflexivity.
  - rewrite allDigits_append, Hib, Hfb. reflexivity.
  - rewrite !length_append. congruence.
Qed.

Lemma padded_rendering_head (a : Z) :
  (0 <= a < maxSortable)%Z ->
  exists c rest,
    sprintf0 37 (decimal.String (Some a)) = String c rest /\ isDigit c = true.
Proof.
  intros Ha.
  destruct (padded_rendering a Ha) as (ip & fp & -> & Hip & _ & Lip & _).
  destruct ip as [|c ip]; [discriminate|].
  apply andb_true_iff in Hip as [Hc _].
  exists c, (ip ++ "." ++ fp). split; [reflexivity|exact Hc].
Qed.

Lemma minus_before_digit (c : ascii) :
  isDigit c = true -> Ascii.compare c "-" = Gt.
Proof. destruct c as [[] [] [] [] [] [] [] []]; try discriminate; reflexivity. Qed.

Lemma ltb_compare (s t : string) (x y : Z) :
  String.compare s t = (x ?= y)%Z -> bytesLess s t = (x <? y)%Z.
Proof. unfold bytesLess, String.ltb, Z.ltb. intros ->. reflexivity. Qed.

(** C1, as far as it holds and where it fails: the two ends of the range
    are encoded as "max" and "--", which sort after and before every
    other key; keys of values that are not negative sort as the values
    do, and after every key of a negative value; but among negative
    values the order of the keys is the reverse of the order of the
    values, the digits after the "-" growing with the magnitude: the key
    of -2 comes after the key of -1. *)
Theorem SortableDecBytes_order (maxBitLen : Z) :
  (61 <= maxBitLen)%Z ->
  SortableDecBytes maxBitLen maxSortable = Return "max" /\
  SortableDecBytes maxBitLen (- maxSortable) = Return "--" /\
  (forall a,
     (Z.abs a < maxSortable)%Z ->
     exists ka,
       SortableDecBytes maxBitLen a = Return ka /\
       bytesLess "--" ka = true /\ bytesLess ka "max" = true) /\
  (forall a b ka kb,
     (Z.abs a < maxSortable)%Z -> (Z.abs b < maxSortable)%Z ->
     SortableDecBytes maxBitLen a = Return ka ->
     SortableDecBytes maxBitLen b = Return kb ->
     ((0 <= a)%Z -> (0 <= b)%Z -> bytesLess ka kb = (a <? b)%Z) /\
     ((a < 0)%Z -> (0 <= b)%Z ->
      bytesLess ka kb = true /\ bytesLess kb ka = false) /\
     ((a < 0)%Z -> (b < 0)%Z -> bytesLess ka kb = (b <? a)%Z)) /\
  ((-2000000000000000000 < -1000000000000000000)%Z /\
   SortableDecBytes maxBitLen (-2000000000000000000)
     = Return "-000000000000000002.000000000000000000" /\
   SortableDecBytes maxBitLen (-1000000000000000000)
     = Return "-000000000000000001.000000000000000000" /\
   bytesLess "-000000000000000002.000000000000000000"
             "-000000000000000001.000000000000000000" = false /\
   bytesLess "-000000000000000001.000000000000000000"
             "-000000000000000002.000000000000000000" = true).
Proof.
  intros HB.
  split; [apply (SortableDecBytes_ends maxBitLen HB)|].
  split; [apply (SortableDecBytes_ends maxBitLen HB)|].
  split; [|split].
  - intros a Ha. rewrite (SortableDecBytes_inside maxBitLen HB a Ha).
    eexists. split; [reflexivity|].
    destruct (padded_rendering_head (Z.abs a) ltac:(lia)) as (c & rest & -> & Hc).
    unfold bytesLess, String.ltb, signed.
    destruct (a <? 0)%Z; cbn [append String.compare].
    + change (Ascii.compare "-" "-") with Eq. cbv iota.
      rewrite (digit_after_minus c Hc). split; reflexivity.
    + rewrite (digit_after_minus c Hc), (digit_before_m c Hc).
      split; reflexivity.
  - intros a b ka kb Ha Hb Hka Hkb.
    rewrite (SortableDecBytes_inside maxBitLen HB a Ha) in Hka.
    rewrite (SortableDecBytes_inside maxBitLen HB b Hb) in Hkb.
    assert (Eka : ka = signed (a <? 0)%Z
                         (sprintf0 37 (decimal.String (Some (Z.abs a)))))
      by congruence.
    assert (Ekb : kb = signed (b <? 0)%Z
                         (sprintf0 37 (decimal.String (Some (Z.abs b)))))
      by congruence.
    clear Hka Hkb. subst ka kb.
    pose proof (padded_rendering_compare (Z.abs a) (Z.abs b)
                  ltac:(lia) ltac:(lia)) as Hcmp.
    split; [|split].
    + intros Ha0 Hb0.
      replace (a <? 0)%Z with false by (symmetry; apply Z.ltb_ge; lia).
      replace (b <? 0)%Z with false by (symmetry; apply Z.ltb_ge; lia).
      cbn [signed]. rewrite (Z.abs_eq a), (Z.abs_eq b) in * by lia.
      apply ltb_compare, Hcmp.
    + intros Ha0 Hb0.
      replace (a <? 0)%Z with true by (symmetry; apply Z.ltb_lt; lia).
      replace (b <? 0)%Z with false by (symmetry; apply Z.ltb_ge; lia).
      destruct (padded_rendering_head (Z.abs b) ltac:(lia))
        as (c & rest & -> & Hc).
      unfold bytesLess, String.ltb, signed. cbn [append String.compare].
      rewrite (digit_after_minus c Hc), (minus_before_digit c Hc).
      split; reflexivity.
    + intros Ha0 Hb0.
      replace (a <? 0)%Z with true by (symmetry; apply Z.ltb_lt; lia).
      replace (b <? 0)%Z with true by (symmetry; apply Z.ltb_lt; lia).
      assert (Hc : String.compare
                     (signed true (sprintf0 37 (decimal.String (Some (Z.abs a)))))
                     (signed true (sprintf0 37 (decimal.String (Some (Z.abs b)))))
                   = (Z.abs a ?= Z.abs b)%Z).
      { unfold signed. cbn [append String.compare].
        change (Ascii.compare "-" "-") with Eq. exact Hcmp. }
      rewrite (ltb_compare _ _ _ _ Hc).
      destruct (Z.ltb_spec (Z.abs a) (Z.abs b)), (Z.ltb_spec b a);
        try reflexivity; lia.
  - split; [reflexivity|].
    split; [rewrite SortableDecBytes_inside by (exact HB || reflexivity);
            reflexivity|].
    split; [rewrite SortableDecBytes_inside by (exact HB || reflexivity);
            reflexivity|].
    split; reflexivity.
Qed.

Lemma SortableDecBytes_order_witness :
  (61 <= 256)%Z /\
  SortableDecBytes 256 (-2000000000000000000)
    = Return "-000000000000000002.000000000000000000" /\
  SortableDecBytes 256 (-1000000000000000000)
    = Return "-000000000000000001.000000000000000000" /\
  bytesLess "-000000000000000002.000000000000000000"
            "-000000000000000001.000000000000000000"
    = (-1000000000000000000 <? -2000000000000000000)%Z.
Proof.
  assert (H : (61 <= 256)%Z) by discriminate.
  destruct (SortableDecBytes_order 256 H) as (_ & _ & _ & Hpairs & _ & H2 & H1 & _).
  split; [exact H|]. split; [exact H2|]. split; [exact H1|].
  apply (Hpairs (-2000000000000000000)%Z (-1000000000000000000)%Z);
    try reflexivity; assumption.
Defined.

(** * Further properties *)

Local Open Scope Z_scope.

(** ** Constructors *)

Lemma precisionMultiplier_table (prec : Z) :
  0 <= prec <= 18 -> precisionMultiplier prec = Got (10 ^ (18 - prec)).
Proof.
  intros H. unfold precisionMultiplier, Precision.
  replace (prec >? 18) with false by (symmetry; rewrite Z.gtb_ltb; apply Z.ltb_ge; lia).
  replace (prec <? 0) with false by (symmetry; apply Z.ltb_ge; lia).
  rewrite <- (Z2Nat.id prec) at 2 by lia.
  assert (Hn : (Z.to_nat prec < 19)%nat) by lia.
  set (n := Z.to_nat prec) in *. clearbody n.
  do 19 (destruct n as [|n]; [reflexivity|]). lia.
Qed.

Lemma int64_times_multiplier_bound (maxBitLen i m : Z) :
  64 <= maxBitLen -> - 2 ^ 63 <= i <= 2 ^ 63 - 1 -> 0 < m <= 10 ^ 18 ->
  withinBound maxBitLen (i * m).
Proof.
  intros HB Hi Hm. unfold withinBound.
  apply Z.le_trans with 123.
  - apply BitLen_le_iff; [lia|].
    change (2 ^ 123) with (2 ^ 63 * 2 ^ 60).
    change (2 ^ 63) with 9223372036854775808 in *.
    change (10 ^ 18) with 1000000000000000000 in Hm.
    change (2 ^ 60) with 1152921504606846976.
    rewrite Z.abs_mul. rewrite (Z.abs_eq m) by lia.
    assert (Z.abs i <= 9223372036854775808) by lia.
    pose proof (Z.abs_nonneg i). nia.
  - unfold maxDecBitLen, decimalTruncateBits, DecimalPrecisionBits. lia.
Qed.

(** X1: [NewDecWithPrec i prec] (and [NewDec], the case [prec = 0]) gives
    [i * 10^(18 - prec)] for a precision from 0 to 18, that is the value
    [i / 10^prec]; a larger precision panics with "too much precision", a
    negative one with the index error of the table.  For an int64 [i]
    and a bound of at least 64 bits for the integer type the value is
    within the bound, though no check is made. *)
Theorem NewDecWithPrec_scaled (maxBitLen i prec : Z) :
  (0 <= prec <= 18 ->
   exists d, NewDecWithPrec i prec = Got d /\
             d = i * 10 ^ (18 - prec) /\ d * 10 ^ prec = i * oneUnit /\
             (64 <= maxBitLen -> - 2 ^ 63 <= i <= 2 ^ 63 - 1 ->
              withinBound maxBitLen d)) /\
  (18 < prec -> NewDecWithPrec i prec = PanicTooMuchPrecision) /\
  (prec < 0 -> NewDecWithPrec i prec = PanicIndexOutOfRange) /\
  NewDec i = Got (i * oneUnit).
Proof.
  split; [|split; [|split]].
  - intros H. exists (i * 10 ^ (18 - prec)).
    unfold NewDecWithPrec. rewrite (precisionMultiplier_table prec H).
    split; [reflexivity|]. split; [reflexivity|]. split.
    + rewrite <- Z.mul_assoc, <- Z.pow_add_r by lia.
      replace (18 - prec + prec) with 18 by lia. reflexivity.
    + intros HB Hi. apply int64_times_multiplier_bound; [exact HB|exact Hi|].
      split; [apply Z.pow_pos_nonneg; lia|].
      apply Z.pow_le_mono_r; lia.
  - intros H. unfold NewDecWithPrec, precisionMultiplier, Precision.
    replace (prec >? 18) with true by (symmetry; rewrite Z.gtb_ltb; apply Z.ltb_lt; lia).
    reflexivity.
  - intros H. unfold NewDecWithPrec, precisionMultiplier, Precision.
    replace (prec >? 18) with false by (symmetry; rewrite Z.gtb_ltb; apply Z.ltb_ge; lia).
    replace (prec <? 0) with true by (symmetry; apply Z.ltb_lt; lia).
    reflexivity.
  - reflexivity.
Qed.

Lemma NewDecWithPrec_scaled_witness :
  NewDecWithPrec 15 1 = Got 1500000000000000000 /\
  NewDecWithPrec 15 19 = PanicTooMuchPrecision /\
  NewDecWithPrec 15 (-1) = PanicIndexOutOfRange.
Proof.
  destruct (NewDecWithPrec_scaled 256 15 1) as (H1 & _).
  destruct (NewDecWithPrec_scaled 256 15 19) as (_ & H2 & _).
  destruct (NewDecWithPrec_scaled 256 15 (-1)) as (_ & _ & H3 & _).
  split; [|split].
  - destruct (H1 ltac:(lia)) as (d & Hd & -> & _). exact Hd.
  - apply H2. lia.
  - apply H3. lia.
Defined.

(** X2: the constructors from a big integer scale by 10^18 without a
    check.  An integer of fewer than [maxBitLen] bits gives a value
    within the bound; the largest integer of [maxBitLen] bits gives one
    outside it. *)
Theorem NewDecFromBigInt_bound (maxBitLen : Z) :
  2 <= maxBitLen ->
  (forall i, NewDecFromBigIntWithPrec i 0 = Got (NewDecFromBigInt i)) /\
  (forall i, big.BitLen i <= maxBitLen - 1 ->
             withinBound maxBitLen (NewDecFromBigInt i)) /\
  (big.BitLen (2 ^ maxBitLen - 1) = maxBitLen /\
   ~ withinBound maxBitLen (NewDecFromBigInt (2 ^ maxBitLen - 1))).
Proof.
  intros HB.
  assert (Hn : 0 <= maxDecBitLen maxBitLen)
    by (unfold maxDecBitLen, decimalTruncateBits, DecimalPrecisionBits; lia).
  assert (Hsplit : 2 ^ maxDecBitLen maxBitLen = 2 ^ maxBitLen * 2 ^ 59).
  { unfold maxDecBitLen, decimalTruncateBits, DecimalPrecisionBits.
    rewrite <- Z.pow_add_r by lia. f_equal. }
  change (2 ^ 59) with 576460752303423488 in Hsplit.
  split; [reflexivity|]. split.
  - intros i Hi. unfold withinBound, NewDecFromBigInt.
    change (tenInt ^ (Precision - 0)) with 1000000000000000000.
    apply BitLen_le_iff; [exact Hn|].
    apply (BitLen_le_iff i (maxBitLen - 1)) in Hi; [|lia].
    assert (Hp : 2 ^ maxBitLen = 2 * 2 ^ (maxBitLen - 1)).
    { rewrite <- Z.pow_succ_r by lia. f_equal. lia. }
    rewrite Hsplit, Hp, Z.abs_mul.
    change (Z.abs 1000000000000000000) with 1000000000000000000.
    pose proof (Z.abs_nonneg i). nia.
  - assert (Hp : 4 <= 2 ^ maxBitLen).
    { change 4 with (2 ^ 2). apply Z.pow_le_mono_r; lia. }
    split.
    + apply Z.le_antisymm.
      * apply BitLen_le_iff; [lia|]. lia.
      * destruct (Z.le_gt_cases maxBitLen (big.BitLen (2 ^ maxBitLen - 1)))
          as [|Hlt]; [assumption|].
        assert (Hle : big.BitLen (2 ^ maxBitLen - 1) <= maxBitLen - 1) by lia.
        apply BitLen_le_iff in Hle; [|lia].
        assert (Hq : 2 ^ maxBitLen = 2 * 2 ^ (maxBitLen - 1)).
        { rewrite <- Z.pow_succ_r by lia. f_equal. lia. }
        lia.
    + unfold withinBound, NewDecFromBigInt.
      change (tenInt ^ (Precision - 0)) with 1000000000000000000.
      rewrite (BitLen_le_iff _ _ Hn), Hsplit. nia.
Qed.

Lemma NewDecFromBigInt_bound_witness :
  2 <= 256 /\
  ~ withinBound 256 (NewDecFromBigInt (2 ^ 256 - 1)).
Proof.
  assert (H : 2 <= 256) by discriminate.
  split; [exact H|].
  exact (proj2 (proj2 (proj2 (NewDecFromBigInt_bound 256 H)))).
Defined.

(** ** Arithmetic *)

Lemma LT_ltb (x y : Z) : LT x y = (x <? y).
Proof.
  unfold LT, big.Cmp.
  destruct (Z.compare_spec x y), (Z.ltb_spec x y); try reflexivity; lia.
Qed.

Lemma GT_gtb (x y : Z) : GT x y = (y <? x).
Proof.
  unfold GT, big.Cmp.
  destruct (Z.compare_spec x y), (Z.ltb_spec y x); try reflexivity; lia.
Qed.

Lemma chopPrecisionAndRound_exact (x : Z) :
  chopPrecisionAndRound (x * oneUnit) = x.
Proof.
  rewrite chopPrecisionAndRound_roundHalfEven.
  unfold roundHalfEven, quotientOf, remainderOf.
  rewrite Z.abs_mul. change (Z.abs oneUnit) with oneUnit.
  rewrite Z.mod_mul, Z.div_mul by discriminate.
  change (0 =? 0) with true. cbv iota.
  rewrite Z.sgn_mul. change (Z.sgn oneUnit) with 1.
  rewrite Z.mul_1_r, Z.mul_comm. apply Z.abs_sgn.
Qed.

Lemma immut_checked_within (maxBitLen x : Z) :
  withinBound maxBitLen x -> immut (checked maxBitLen x) = Return x.
Proof.
  intros H. apply checked_passes in H. unfold immut. rewrite H. reflexivity.
Qed.

(** X3: the operations that make no check but cannot grow the magnitude
    keep a value within the bound: [Neg], [Abs], [MinDec], [MaxDec] and
    the division by a non-zero int64, which does not panic then. *)
Theorem unchecked_operations_keep_bound (maxBitLen d d2 i : Z) :
  withinBound maxBitLen d -> withinBound maxBitLen d2 ->
  withinBound maxBitLen (Neg d) /\
  withinBound maxBitLen (Abs d) /\
  withinBound maxBitLen (MinDec d d2) /\
  withinBound maxBitLen (MaxDec d d2) /\
  (i <> 0 ->
   panicked (QuoInt64Mut d i) = None /\
   withinBound maxBitLen (store (QuoInt64Mut d i)) /\
   store (QuoInt64Mut d i) = Z.quot d i).
Proof.
  intros Hd Hd2. unfold withinBound in *.
  split; [unfold Neg; rewrite BitLen_opp; exact Hd|].
  split; [unfold Abs; rewrite BitLen_abs; exact Hd|].
  split; [unfold MinDec; destruct (LT d d2); assumption|].
  split; [unfold MaxDec; destruct (LT d d2); assumption|].
  intros Hi. unfold QuoInt64Mut.
  destruct (Z.eqb_spec i 0); [contradiction|]. cbn [panicked store].
  split; [reflexivity|]. split; [|reflexivity].
  apply Z.le_trans with (big.BitLen d); [|exact Hd].
  apply BitLen_mono. rewrite <- Z.quot_abs by exact Hi.
  assert (Hpos : 0 < Z.abs i) by lia.
  pose proof (Z.abs_nonneg d).
  rewrite Z.quot_div_nonneg by lia.
  apply Z.div_le_upper_bound; [lia|]. nia.
Qed.

Lemma unchecked_operations_keep_bound_witness :
  withinBound 256 (Neg 5) /\ store (QuoInt64Mut 7 (-2)) = -3.
Proof.
  assert (H5 : withinBound 256 5) by (vm_compute; discriminate).
  assert (H7 : withinBound 256 7) by (vm_compute; discriminate).
  split.
  - exact (proj1 (unchecked_operations_keep_bound 256 5 5 1 H5 H5)).
  - destruct (unchecked_operations_keep_bound 256 7 7 (-2) H7 H7)
      as (_ & _ & _ & _ & H).
    destruct (H ltac:(discriminate)) as (_ & _ & ->). reflexivity.
Defined.

(** X4: addition does not depend on the order of its operands, and a
    subtraction undoes an addition that did not overflow: if [d] and [e]
    are within the bound and [Add d e] returns [s], then [Sub s e]
    returns [d] and [Sub s d] returns [e]. *)
Theorem Add_Sub_inverse (maxBitLen d e s : Z) :
  Add maxBitLen d e = Add maxBitLen e d /\
  (withinBound maxBitLen d -> withinBound maxBitLen e ->
   Add maxBitLen d e = Return s ->
   Sub maxBitLen s e = Return d /\ Sub maxBitLen s d = Return e).
Proof.
  split.
  - unfold Add, ImmutOp, AddMut, Clone. rewrite Z.add_comm. reflexivity.
  - intros Hd He Hadd. unfold Add, ImmutOp, AddMut, Clone in Hadd.
    apply immut_checked in Hadd as [-> _].
    unfold Sub, ImmutOp, SubMut, Clone. split.
    + replace (d + e - e) with d by lia. apply immut_checked_within, Hd.
    + replace (d + e - d) with e by lia. apply immut_checked_within, He.
Qed.

Lemma Add_Sub_inverse_witness :
  Sub 256 (3 + 4) 4 = Return 3.
Proof.
  assert (H3 : withinBound 256 3) by (vm_compute; discriminate).
  assert (H4 : withinBound 256 4) by (vm_compute; discriminate).
  destruct (Add_Sub_inverse 256 3 4 7) as [_ H].
  exact (proj1 (H H3 H4 eq_refl)).
Defined.

(** X5: [OneDec] is the unit of [Mul] and [Quo]: for [d] within the
    bound, [Mul d OneDec], [Mul OneDec d] and [Quo d OneDec] return [d]
    exactly, and [Quo d d] returns [OneDec] for a non-zero [d]; [Mul] does
    not depend on the order of its operands. *)
Theorem OneDec_unit (maxBitLen d d2 : Z) :
  Mul maxBitLen d d2 = Mul maxBitLen d2 d /\
  (withinBound maxBitLen d ->
   Mul maxBitLen d OneDec = Return d /\
   Mul maxBitLen OneDec d = Return d /\
   Quo maxBitLen d OneDec = Return d /\
   (d <> 0 -> withinBound maxBitLen OneDec ->
    Quo maxBitLen d d = Return OneDec)).
Proof.
  split.
  - unfold Mul, ImmutOp, MulMut, Clone. rewrite Z.mul_comm. reflexivity.
  - intros Hd. unfold Mul, Quo, ImmutOp, MulMut, QuoMut, Clone, OneDec.
    rewrite <- oneUnit_eq.
    split; [rewrite chopPrecisionAndRound_exact;
            apply immut_checked_within, Hd|].
    split; [rewrite Z.mul_comm, chopPrecisionAndRound_exact;
            apply immut_checked_within, Hd|].
    split.
    + change (oneUnit =? 0) with false. cbv iota.
      rewrite Z.quot_mul by discriminate.
      rewrite chopPrecisionAndRound_exact. apply immut_checked_within, Hd.
    + intros Hnz Hone. destruct (Z.eqb_spec d 0); [contradiction|].
      replace (d * oneUnit * oneUnit) with (oneUnit * oneUnit * d) by ring.
      rewrite Z.quot_mul by exact Hnz.
      rewrite chopPrecisionAndRound_exact. apply immut_checked_within, Hone.
Qed.

Lemma OneDec_unit_witness :
  Mul 256 1500000000000000000 OneDec = Return 1500000000000000000 /\
  Quo 256 1500000000000000000 1500000000000000000 = Return OneDec.
Proof.
  assert (H : withinBound 256 1500000000000000000) by (vm_compute; discriminate).
  destruct (OneDec_unit 256 1500000000000000000 0) as [_ Hu].
  destruct (Hu H) as (Hm & _ & _ & Hq).
  split; [exact Hm|].
  apply Hq; [discriminate|vm_compute; discriminate].
Defined.



Lemma chop_policies (x : Z) :
  (0 <= x ->
   chopPrecisionAndTruncate x <= chopPrecisionAndRound x
   <= chopPrecisionAndRoundUp x /\
   chopPrecisionAndRoundUp x <= chopPrecisionAndTruncate x + 1) /\
  (x < 0 ->
   chopPrecisionAndRoundUp x = chopPrecisionAndTruncate x /\
   chopPrecisionAndTruncate x - 1 <= chopPrecisionAndRound x
   <= chopPrecisionAndTruncate x).
Proof.
  rewrite chopPrecisionAndRoundUp_spec, chopPrecisionAndTruncate_spec,
    chopPrecisionAndRound_roundHalfEven.
  unfold roundHalfEven, roundUpAwayFromZero, truncateTowardZero.
  pose proof (abs_quotient_remainder x) as [_ Hr].
  set (q := quotientOf x). set (r := remainderOf x) in *.
  split; intros Hx.
  - replace (x <? 0) with false by (symmetry; apply Z.ltb_ge; lia).
    destruct (Z.eq_dec x 0) as [->|Hnz]; [compute; repeat split; discriminate|].
    rewrite (Z.sgn_pos x) by lia.
    destruct (r =? 0); [lia|].
    destruct (r <? halfUnit); [lia|].
    destruct (r >? halfUnit); [lia|].
    destruct (Z.even q); lia.
  - replace (x <? 0) with true by (symmetry; apply Z.ltb_lt; lia).
    rewrite (Z.sgn_neg x) by lia. split; [reflexivity|].
    destruct (r =? 0); [lia|].
    destruct (r <? halfUnit); [lia|].
    destruct (r >? halfUnit); [lia|].
    destruct (Z.even q); lia.
Qed.

(** X7: how the three chopping policies relate on one argument: for an
    argument that is not negative, truncation <= half-even rounding <=
    rounding up <= truncation + 1; for a negative one, rounding up is
    truncation and half-even rounding is truncation or one less.  So the
    receivers left by [QuoMut] and [QuoRoundupMut] are within one of
    what [QuoTruncateMut] leaves. *)
Theorem chopping_policies_related (maxBitLen m d d2 : Z) :
  (0 <= m ->
   chopPrecisionAndTruncate m <= chopPrecisionAndRound m
   <= chopPrecisionAndRoundUp m /\
   chopPrecisionAndRoundUp m <= chopPrecisionAndTruncate m + 1) /\
  (m < 0 ->
   chopPrecisionAndRoundUp m = chopPrecisionAndTruncate m /\
   chopPrecisionAndTruncate m - 1 <= chopPrecisionAndRound m
   <= chopPrecisionAndTruncate m) /\
  (d2 <> 0 ->
   Z.abs (store (QuoMut maxBitLen d d2)
          - store (QuoTruncateMut maxBitLen d d2)) <= 1 /\
   store (QuoTruncateMut maxBitLen d d2)
   <= store (QuoRoundupMut maxBitLen d d2)
   <= store (QuoTruncateMut maxBitLen d d2) + 1).
Proof.
  split; [apply chop_policies|]. split; [apply chop_policies|].
  intros Hd2. unfold QuoMut, QuoTruncateMut, QuoRoundupMut.
  destruct (Z.eqb_spec d2 0); [contradiction|]. cbn [store checked].
  set (x := Z.quot (d * precisionReuse * precisionReuse) d2).
  destruct (chop_policies x) as [Hpos Hneg].
  destruct (Z.lt_ge_cases x 0) as [Hx|Hx].
  - destruct (Hneg Hx) as [-> ?]. lia.
  - destruct (Hpos Hx). lia.
Qed.

Lemma chopping_policies_related_witness :
  chopPrecisionAndTruncate 1500000000000000000 <= chopPrecisionAndRound 1500000000000000000
  /\ chopPrecisionAndRoundUp (-1500000000000000000)
     = chopPrecisionAndTruncate (-1500000000000000000).
Proof.
  destruct (chopping_policies_related 256 1500000000000000000 1 1) as (Hp & _).
  destruct (chopping_policies_related 256 (-1500000000000000000) 1 1) as (_ & Hn & _).
  split.
  - apply Hp. discriminate.
  - apply Hn. reflexivity.
Defined.

(** ** Whole numbers *)

Lemma IsInteger_iff (e : Z) : IsInteger e = true <-> exists k, e = k * oneUnit.
Proof.
  unfold IsInteger, big.Sign. rewrite <- oneUnit_eq. split.
  - intros H. apply Z.eqb_eq in H.
    assert (Hr : Z.rem e oneUnit = 0) by (destruct (Z.rem e oneUnit); simpl in H; congruence).
    apply Z.rem_divide in Hr; [|discriminate]. destruct Hr as [k Hk].
    exists k. exact Hk.
  - intros [k ->]. rewrite Z.rem_mul by discriminate. reflexivity.
Qed.

Lemma TruncateDec_eq (d : Z) : TruncateDec d = Z.quot d oneUnit * oneUnit.
Proof. reflexivity. Qed.

(** X8: [TruncateDec] drops the fractional digits toward zero: its
    result is a whole number between zero and [d], less than one unit
    away from [d]; it leaves whole numbers, and only them, as they are,
    and truncating twice is truncating once. *)
Theorem TruncateDec_toward_zero (d : Z) :
  IsInteger (TruncateDec d) = true /\
  Z.abs (TruncateDec d) <= Z.abs d /\
  Z.abs (d - TruncateDec d) < oneUnit /\
  (0 <= d -> 0 <= TruncateDec d <= d) /\
  (d <= 0 -> d <= TruncateDec d <= 0) /\
  (TruncateDec d = d <-> IsInteger d = true) /\
  TruncateDec (TruncateDec d) = TruncateDec d.
Proof.
  rewrite !TruncateDec_eq.
  assert (Hu : oneUnit = 1000000000000000000) by reflexivity.
  pose proof (Z.quot_rem' d oneUnit) as Hqr.
  pose proof (Z.rem_bound_abs d oneUnit ltac:(lia)) as Hb.
  change (Z.abs oneUnit) with oneUnit in Hb.
  assert (Hsign : 0 <= Z.rem d oneUnit * d) by (apply Z.rem_sign_mul; lia).
  set (q := Z.quot d oneUnit) in *. set (r := Z.rem d oneUnit) in *.
  split; [apply IsInteger_iff; exists q; reflexivity|].
  split; [nia|]. split; [replace (d - q * oneUnit) with r by lia; lia|].
  split; [intros; nia|]. split; [intros; nia|]. split.
  - rewrite IsInteger_iff. split.
    + intros H. exists q. lia.
    + intros [k Hk]. assert (r = (k - q) * oneUnit) by lia.
      assert (k - q = 0) by nia. nia.
  - rewrite Z.quot_mul by lia. reflexivity.
Qed.

(** X9: [Ceil] returns the least whole number that is not below its
    argument, as its comment says: the result is a whole number, at
    least [d] and less than one unit above it, and no whole number from
    [d] on is smaller; a whole number is its own ceiling. *)
Theorem Ceil_least_whole (d : Z) :
  IsInteger (Ceil d) = true /\
  d <= Ceil d < d + oneUnit /\
  (forall e, IsInteger e = true -> d <= e -> Ceil d <= e) /\
  (IsInteger d = true -> Ceil d = d) /\
  Ceil (Ceil d) = Ceil d.
Proof.
  assert (Hu : oneUnit = 1000000000000000000) by reflexivity.
  assert (Hfix : forall k, Ceil (k * oneUnit) = k * oneUnit).
  { intros k. rewrite Ceil_spec.
    replace (- (k * oneUnit)) with ((- k) * oneUnit) by ring.
    rewrite Z.div_mul by lia. ring. }
  rewrite (Ceil_spec (Ceil d)), !Ceil_spec.
  pose proof (Z.div_mod (- d) oneUnit ltac:(lia)) as Hdm.
  pose proof (Z.mod_pos_bound (- d) oneUnit ltac:(lia)) as Hm.
  set (k := (- d) / oneUnit) in *. set (r := (- d) mod oneUnit) in *.
  split; [apply IsInteger_iff; exists (- k); reflexivity|].
  split; [lia|]. split; [|split].
  - intros e [j ->]%IsInteger_iff Hle. nia.
  - intros [j Hj]%IsInteger_iff.
    assert (r = (- j - k) * oneUnit) by lia.
    assert (- j - k = 0) by nia. nia.
  - replace (- (- k * oneUnit)) with (k * oneUnit) by ring.
    rewrite Z.div_mul by lia. reflexivity.
Qed.

Lemma Ceil_least_whole_witness :
  Ceil 1500000000000000000 <= 2000000000000000000 /\
  Ceil (-1500000000000000000) <= -1000000000000000000.
Proof.
  destruct (Ceil_least_whole 1500000000000000000) as (_ & _ & H1 & _).
  destruct (Ceil_least_whole (-1500000000000000000)) as (_ & _ & H2 & _).
  split; [apply H1|apply H2]; try reflexivity; discriminate.
Defined.

Lemma TruncateDec_toward_zero_witness :
  0 <= TruncateDec 1500000000000000000 <= 1500000000000000000 /\
  -1500000000000000000 <= TruncateDec (-1500000000000000000) <= 0.
Proof.
  destruct (TruncateDec_toward_zero 1500000000000000000) as (_ & _ & _ & H1 & _).
  destruct (TruncateDec_toward_zero (-1500000000000000000))
    as (_ & _ & _ & _ & H2 & _).
  split; [apply H1|apply H2]; discriminate.
Defined.

(** X10: the int64 conversions give back the integer a decimal was made
    from: for an int64 [i], [RoundInt64] and [TruncateInt64] of [NewDec i]
    both return [i].  [TruncateInt64] panics exactly when the truncated
    quotient is outside the int64 range, and where both return they are
    at most one apart. *)
Theorem Int64_round_trip (i d : Z) :
  (- 2 ^ 63 <= i <= 2 ^ 63 - 1 ->
   NewDec i = Got (i * oneUnit) /\
   RoundInt64 (i * oneUnit) = Some i /\
   TruncateInt64 (i * oneUnit) = Some i) /\
  (TruncateInt64 d = None <->
   ~ (- 2 ^ 63 <= Z.quot d oneUnit <= 2 ^ 63 - 1)) /\
  (forall r t, RoundInt64 d = Some r -> TruncateInt64 d = Some t ->
               Z.abs (r - t) <= 1).
Proof.
  assert (H64 : forall x, IsInt64 x = true <-> - 2 ^ 63 <= x <= 2 ^ 63 - 1).
  { intros x. unfold IsInt64. rewrite andb_true_iff, !Z.leb_le. reflexivity. }
  split; [|split].
  - intros Hi. apply H64 in Hi. split; [reflexivity|].
    unfold RoundInt64, TruncateInt64, chopPrecisionAndRoundNonMutative,
      chopPrecisionAndTruncateNonMutative, chopPrecisionAndTruncate.
    rewrite chopPrecisionAndRound_exact, <- oneUnit_eq.
    rewrite Z.quot_mul by discriminate. rewrite Hi. split; reflexivity.
  - unfold TruncateInt64, chopPrecisionAndTruncateNonMutative,
      chopPrecisionAndTruncate. rewrite <- oneUnit_eq, <- H64.
    destruct (IsInt64 (Z.quot d oneUnit)); cbn [negb]; split;
      try discriminate; try reflexivity; intros H; exfalso; apply H; reflexivity.
  - intros r t. unfold RoundInt64, TruncateInt64,
      chopPrecisionAndRoundNonMutative, chopPrecisionAndTruncateNonMutative.
    destruct (IsInt64 (chopPrecisionAndRound d)); [|discriminate].
    destruct (IsInt64 (chopPrecisionAndTruncate d)); [|discriminate].
    cbn [negb]. intros [= <-] [= <-].
    destruct (chop_policies d) as (Hp & Hn).
    destruct (Z.lt_ge_cases d 0) as [Hd|Hd].
    + destruct (Hn Hd) as [_ ?]. lia.
    + destruct (Hp Hd) as [? ?]. lia.
Qed.

Lemma Int64_round_trip_witness :
  RoundInt64 (-7 * oneUnit) = Some (-7) /\
  TruncateInt64 (2 ^ 63 * oneUnit) = None.
Proof.
  destruct (Int64_round_trip (-7) (2 ^ 63 * oneUnit)) as (H1 & H2 & _).
  split.
  - apply H1. split; discriminate.
  - apply H2. vm_compute. intros [_ H]. apply H. reflexivity.
Defined.

(** ** Powers and roots *)

Lemma MulMut_whole (maxBitLen a b r : Z) :
  immut (MulMut maxBitLen (a * oneUnit) (b * oneUnit)) = Return r ->
  r = a * b * oneUnit.
Proof.
  unfold MulMut.
  replace (a * oneUnit * (b * oneUnit)) with (a * b * oneUnit * oneUnit) by ring.
  rewrite chopPrecisionAndRound_exact. intros H.
  apply immut_checked in H as [-> _]. reflexivity.
Qed.

(** The loop of [PowerMut] on whole numbers keeps whole numbers, the
    product of the power still to take and of [tmp] staying the same. *)
Lemma powerLoop_whole (maxBitLen : Z) (i : positive) (a t d' tmp' : Z) :
  powerLoop maxBitLen i (a * oneUnit) (t * oneUnit) = Return (d', tmp') ->
  exists a' t', d' = a' * oneUnit /\ tmp' = t' * oneUnit /\
                a' * t' = a ^ Z.pos i * t.
Proof.
  revert a t. induction i as [i IH|i IH|]; intros a t; cbn [powerLoop].
  - unfold andThen.
    destruct (immut (MulMut maxBitLen (t * oneUnit) (a * oneUnit)))
      as [t1|] eqn:Ht; [|discriminate].
    destruct (immut (MulMut maxBitLen (a * oneUnit) (a * oneUnit)))
      as [d1|] eqn:Hd; [|discriminate].
    apply MulMut_whole in Ht, Hd. subst t1 d1. intros H.
    destruct (IH _ _ H) as (a' & t' & -> & -> & Hp).
    exists a', t'. repeat split. rewrite Hp, Pos2Z.inj_xI.
    rewrite Z.pow_add_r, Z.pow_mul_r, Z.pow_2_r, Z.pow_1_r by lia. ring.
  - unfold andThen.
    destruct (immut (MulMut maxBitLen (a * oneUnit) (a * oneUnit)))
      as [d1|] eqn:Hd; [|discriminate].
    apply MulMut_whole in Hd. subst d1. intros H.
    destruct (IH _ _ H) as (a' & t' & -> & -> & Hp).
    exists a', t'. repeat split. rewrite Hp, Pos2Z.inj_xO.
    rewrite Z.pow_mul_r, Z.pow_2_r by lia. reflexivity.
  - intros [= <- <-]. exists a, t. repeat split. rewrite Z.pow_1_r. reflexivity.
Qed.

Lemma powerLoop_one (maxBitLen : Z) (i : positive) :
  withinBound maxBitLen OneDec ->
  powerLoop maxBitLen i OneDec OneDec = Return (OneDec, OneDec).
Proof.
  intros H1.
  assert (Hm : immut (MulMut maxBitLen OneDec OneDec) = Return OneDec).
  { unfold MulMut, OneDec. rewrite <- oneUnit_eq, chopPrecisionAndRound_exact.
    apply immut_checked_within. exact H1. }
  induction i as [i IH|i IH|]; cbn [powerLoop]; unfold andThen;
    rewrite ?Hm; try exact IH; reflexivity.
Qed.

(** X11: [Power] by 0 is [OneDec] whatever the receiver; by 1 it is the
    receiver and by 2 its [Mul] with itself (for a receiver, or a
    square, within the bound); every power of [OneDec] is [OneDec]; and
    on a whole number [k] it is exact: if [Power] returns for
    [k * 10^18], it returns [k^n * 10^18]. *)
Theorem Power_whole_numbers (maxBitLen d k : Z) (n : N) :
  Power maxBitLen d 0 = Return OneDec /\
  (withinBound maxBitLen d -> Power maxBitLen d 1 = Return d) /\
  (forall s, Mul maxBitLen d d = Return s -> Power maxBitLen d 2 = Return s) /\
  (withinBound maxBitLen OneDec -> Power maxBitLen OneDec n = Return OneDec) /\
  (forall r, Power maxBitLen (k * oneUnit) n = Return r ->
             r = k ^ Z.of_N n * oneUnit).
Proof.
  split; [reflexivity|]. split; [|split; [|split]].
  - intros Hd. cbn [Power powerLoop andThen]. unfold Clone, MulMut, OneDec.
    rewrite <- oneUnit_eq, chopPrecisionAndRound_exact.
    apply immut_checked_within, Hd.
  - intros s Hs. unfold Mul, ImmutOp, Clone in Hs.
    cbn [Power powerLoop]. unfold Clone, andThen. rewrite Hs.
    unfold MulMut in *. apply immut_checked in Hs as [_ Hs].
    unfold OneDec. rewrite <- oneUnit_eq, chopPrecisionAndRound_exact.
    apply immut_checked_within, Hs.
  - intros H1. destruct n as [|i]; [reflexivity|].
    cbn [Power]. unfold Clone. rewrite (powerLoop_one maxBitLen i H1).
    cbn [andThen]. unfold MulMut, OneDec.
    rewrite <- oneUnit_eq, chopPrecisionAndRound_exact.
    apply immut_checked_within, H1.
  - intros r. destruct n as [|i].
    + cbn [Power]. intros H.
      assert (Hr : r = SetInt64 1) by congruence.
      rewrite Hr. reflexivity.
    + cbn [Power]. unfold Clone, andThen.
      replace OneDec with (1 * oneUnit) by reflexivity.
      destruct (powerLoop maxBitLen i (k * oneUnit) (1 * oneUnit))
        as [[d' tmp']|] eqn:Hl; [|discriminate].
      destruct (powerLoop_whole _ _ _ _ _ _ Hl) as (a' & t' & -> & -> & Hp).
      intros H. apply MulMut_whole in H. rewrite H, Hp.
      cbn [Z.of_N]. ring.
Qed.

Lemma Power_whole_numbers_witness :
  Power 256 (3 * oneUnit) 5 = Return (243 * oneUnit) /\
  Power 256 1500000000000000000 2 = Return 2250000000000000000.
Proof.
  destruct (Power_whole_numbers 256 1500000000000000000 3 5)
    as (_ & _ & H2 & _ & Hk).
  split.
  - destruct (Power 256 (3 * oneUnit) 5) as [r|p] eqn:E;
      [|vm_compute in E; discriminate].
    rewrite (Hk r eq_refl). reflexivity.
  - apply H2. vm_compute. reflexivity.
Defined.

(** X12: the cases that [ApproxRoot] settles without the Newton loop,
    and its symmetry: root 1 returns the receiver, as do the receivers
    zero and one whatever the root; root 0 returns one for a positive
    receiver and minus one for a negative receiver (other than minus
    one, which is returned itself); and the root of [- d] is minus the
    root of [d], with the same error. *)
Theorem ApproxRoot_settled_cases (maxBitLen d : Z) (root : N) :
  ApproxRoot maxBitLen d 1 = (d, None) /\
  ApproxRoot maxBitLen ZeroDec root = (ZeroDec, None) /\
  ApproxRoot maxBitLen OneDec root = (OneDec, None) /\
  ApproxRoot maxBitLen (- OneDec) root = (- OneDec, None) /\
  (0 < d -> ApproxRoot maxBitLen d 0 = (OneDec, None)) /\
  (d < 0 -> d <> - OneDec -> ApproxRoot maxBitLen d 0 = (- OneDec, None)) /\
  ApproxRoot maxBitLen (- d) root =
    (- fst (ApproxRoot maxBitLen d root), snd (ApproxRoot maxBitLen d root)).
Proof.
  assert (Hsettled : forall x r,
            (r =? 1)%N || IsZero x || Equal x OneDec = true ->
            approxRootNonNeg maxBitLen x r = (x, None)).
  { intros x r H. unfold approxRootNonNeg. rewrite H. reflexivity. }
  assert (Hzero : forall x,
            IsZero x || Equal x OneDec = false ->
            approxRootNonNeg maxBitLen x 0 = (OneDec, None)).
  { intros x H. unfold approxRootNonNeg.
    change ((0 =? 1)%N) with false. cbn [orb]. rewrite H. reflexivity. }
  split; [|split; [|split; [|split; [|split; [|split]]]]].
  - unfold ApproxRoot, IsNegative, Neg. rewrite Sign_neg_iff.
    destruct (d <? 0); rewrite Hsettled by reflexivity;
      [f_equal; lia|reflexivity].
  - unfold ApproxRoot. change (IsNegative ZeroDec) with false. cbv iota.
    apply Hsettled. change (IsZero ZeroDec) with true.
    rewrite orb_true_r. reflexivity.
  - unfold ApproxRoot. change (IsNegative OneDec) with false. cbv iota.
    apply Hsettled. change (Equal OneDec OneDec) with true.
    apply orb_true_r.
  - unfold ApproxRoot. change (IsNegative (- OneDec)) with true. cbv iota.
    change (Neg (- OneDec)) with OneDec.
    rewrite Hsettled; [reflexivity|].
    change (Equal OneDec OneDec) with true. apply orb_true_r.
  - intros Hd. unfold ApproxRoot, IsNegative.
    rewrite Sign_neg_iff.
    replace (d <? 0) with false by (symmetry; apply Z.ltb_ge; lia).
    destruct (Equal d OneDec) eqn:He.
    + rewrite Hsettled by (rewrite He; apply orb_true_r).
      rewrite Equal_eqb in He. apply Z.eqb_eq in He. subst d. reflexivity.
    + apply Hzero.
      unfold IsZero, big.Sign. rewrite (Z.sgn_pos d) by lia.
      rewrite He. reflexivity.
  - intros Hd Hne. unfold ApproxRoot, IsNegative, Neg.
    rewrite Sign_neg_iff.
    replace (d <? 0) with true by (symmetry; apply Z.ltb_lt; lia).
    rewrite Hzero; [reflexivity|].
    unfold IsZero, big.Sign. rewrite (Z.sgn_pos (- d)) by lia.
    rewrite Equal_eqb.
    replace (- d =? OneDec) with false
      by (symmetry; apply Z.eqb_neq; intros E; apply Hne; lia).
    reflexivity.
  - unfold ApproxRoot, IsNegative, Neg. rewrite !Sign_neg_iff.
    destruct (Z.ltb_spec d 0) as [Hd|Hd].
    + replace (- d <? 0) with false by (symmetry; apply Z.ltb_ge; lia).
      destruct (approxRootNonNeg maxBitLen (- d) root) as [g e].
      cbn [fst snd]. f_equal. lia.
    + destruct (Z.ltb_spec (- d) 0) as [Hn|Hn].
      * rewrite Z.opp_involutive.
        destruct (approxRootNonNeg maxBitLen d root) as [g e]. reflexivity.
      * assert (d = 0) as -> by lia. change (- 0) with 0.
        rewrite (Hsettled 0 root); [reflexivity|].
        change (IsZero 0) with true. rewrite orb_true_r. reflexivity.
Qed.

Lemma ApproxRoot_settled_cases_witness :
  ApproxRoot 256 2000000000000000000 0 = (OneDec, None) /\
  ApproxRoot 256 (-2000000000000000000) 0 = (- OneDec, None).
Proof.
  destruct (ApproxRoot_settled_cases 256 2000000000000000000 0)
    as (_ & _ & _ & _ & Hp & _).
  destruct (ApproxRoot_settled_cases 256 (-2000000000000000000) 0)
    as (_ & _ & _ & _ & _ & Hn & _).
  split; [apply Hp; reflexivity|apply Hn; [reflexivity|discriminate]].
Defined.

(** ** Comparisons and helpers *)

(** X13: the comparison methods decide the order of the scaled integers:
    [Equal], [GT], [GTE], [LT], [LTE] and the sign tests answer as the
    integers compare, so exactly one of [LT], [Equal], [GT] holds;
    [MinDec] and [MaxDec] return the smaller and the larger operand. *)
Theorem comparisons_decide_order (d d2 : Z) :
  Equal d d2 = (d =? d2) /\ GT d d2 = (d2 <? d) /\ GTE d d2 = (d2 <=? d) /\
  LT d d2 = (d <? d2) /\ LTE d d2 = (d <=? d2) /\
  IsZero d = (d =? 0) /\ IsNegative d = (d <? 0) /\ IsPositive d = (0 <? d) /\
  MinDec d d2 = Z.min d d2 /\ MaxDec d d2 = Z.max d d2.
Proof.
  split; [apply Equal_eqb|]. split; [apply GT_gtb|]. split.
  { unfold GTE, big.Cmp.
    destruct (Z.compare_spec d d2), (Z.leb_spec d2 d); try reflexivity; lia. }
  split; [apply LT_ltb|]. split; [apply LTE_leb|].
  split; [unfold IsZero, big.Sign; destruct d; reflexivity|].
  split; [unfold IsNegative; apply Sign_neg_iff|].
  split; [unfold IsPositive, big.Sign; destruct d; reflexivity|].
  unfold MinDec, MaxDec. rewrite LT_ltb.
  destruct (Z.ltb_spec d d2); lia.
Qed.

Lemma decsEqualLoop_spec (d1s d2s : list Z) (i : nat) :
  (i + List.length d1s <= List.length d2s)%nat ->
  decsEqualLoop i d1s d2s = true <->
  d1s = List.firstn (List.length d1s) (List.skipn i d2s).
Proof.
  revert i. induction d1s as [|d1 rest IH]; intros i Hlen.
  - simpl. split; reflexivity.
  - cbn [decsEqualLoop List.length] in *.
    assert (Hi : (i < List.length d2s)%nat) by lia.
    assert (Hskip : List.skipn i d2s = List.nth i d2s 0 :: List.skipn (S i) d2s).
    { clear - Hi. revert i Hi. induction d2s as [|x d2s IHd]; intros i Hi.
      - simpl in Hi. lia.
      - destruct i as [|i]; [reflexivity|]. simpl in Hi.
        change (List.skipn (S i) (x :: d2s)) with (List.skipn i d2s).
        rewrite (IHd i ltac:(lia)). reflexivity. }
    rewrite Hskip. cbn [List.firstn]. rewrite Equal_eqb.
    destruct (Z.eqb_spec d1 (List.nth i d2s 0)) as [->|Hne]; cbn [negb].
    + rewrite (IH (S i) ltac:(lia)). split; [intros <-; reflexivity|].
      intros [= H]. exact H.
    + split; [discriminate|]. intros [= H _]. contradiction.
Qed.

(** X14: [DecsEqual] answers true exactly when the two sequences are the
    same: sequences of different lengths are unequal, and sequences of
    one length are compared element by element. *)
Theorem DecsEqual_iff (d1s d2s : list Z) :
  DecsEqual d1s d2s = true <-> d1s = d2s.
Proof.
  unfold DecsEqual.
  destruct (Nat.eqb_spec (List.length d1s) (List.length d2s)) as [Hl|Hl];
    cbn [negb].
  - rewrite decsEqualLoop_spec by lia.
    cbn [List.skipn]. rewrite Hl, List.firstn_all. reflexivity.
  - split; [discriminate|]. intros ->. contradiction.
Qed.

(** ** Rendering *)

(** X15: [String] always renders a present value as an optional "-", at
    least one integer digit, the point and exactly 18 fractional digits,
    the digits denoting the magnitude; different values have different
    renderings. *)
Theorem String_faithful (d d' : Z) :
  (exists ip fp,
     decimal.String (Some d) = signed (d <? 0) (ip ++ "." ++ fp)%string /\
     allDigits ip = true /\ ip <> EmptyString /\
     allDigits fp = true /\ length fp = 18%nat /\
     numeral (ip ++ fp) = Z.abs d) /\
  (decimal.String (Some d) = decimal.String (Some d') -> d = d').
Proof.
  split.
  - destruct (String_body d) as (ip & fp & Hs & Hip & Hfp & Hne & Hl & Hn & _).
    exists ip, fp. repeat split; assumption.
  - intros He.
    set (B := Z.max (big.BitLen d) (big.BitLen d')).
    assert (Hd : withinBound B d).
    { unfold withinBound, maxDecBitLen, decimalTruncateBits,
        DecimalPrecisionBits, B. lia. }
    assert (Hd' : withinBound B d').
    { unfold withinBound, maxDecBitLen, decimalTruncateBits,
        DecimalPrecisionBits, B. lia. }
    pose proof (NewDecFromStr_String B d Hd) as H1.
    pose proof (NewDecFromStr_String B d' Hd') as H2.
    rewrite He, H2 in H1. injection H1 as H1. symmetry. exact H1.
Qed.

Lemma String_faithful_witness :
  1500000000000000000 = 1500000000000000000.
Proof.
  apply (proj2 (String_faithful 1500000000000000000 1500000000000000000)).
  reflexivity.
Defined.

(** ** Sortable bytes, further *)

Lemma String_cons_inj (c c' : ascii) (s s' : string) :
  String c s = String c' s' -> c = c' /\ s = s'.
Proof. intros [= -> ->]. split; reflexivity. Qed.

Lemma padded_rendering_length (a : Z) :
  0 <= a < maxSortable ->
  length (sprintf0 37 (decimal.String (Some a))) = 37%nat.
Proof.
  intros Ha.
  destruct (padded_rendering a Ha) as (ip & fp & -> & _ & _ & Li & Lf & _).
  rewrite !length_append, Li, Lf. reflexivity.
Qed.

(** X16: strictly inside the range the sortable key has a fixed width,
    37 bytes for a value that is not negative and 38 for a negative
    one, and identifies the value: two values with the same key are
    equal. *)
Theorem SortableDecBytes_injective (maxBitLen a b : Z) (ka kb : string) :
  61 <= maxBitLen ->
  Z.abs a < maxSortable -> Z.abs b < maxSortable ->
  SortableDecBytes maxBitLen a = Return ka ->
  SortableDecBytes maxBitLen b = Return kb ->
  length ka = (if a <? 0 then 38%nat else 37%nat) /\
  (ka = kb -> a = b).
Proof.
  intros HB Ha Hb Hka Hkb.
  rewrite (SortableDecBytes_inside maxBitLen HB a Ha) in Hka.
  rewrite (SortableDecBytes_inside maxBitLen HB b Hb) in Hkb.
  assert (Eka : ka = signed (a <? 0)
                       (sprintf0 37 (decimal.String (Some (Z.abs a)))))
    by congruence.
  assert (Ekb : kb = signed (b <? 0)
                       (sprintf0 37 (decimal.String (Some (Z.abs b)))))
    by congruence.
  clear Hka Hkb. subst ka kb.
  pose proof (padded_rendering_length (Z.abs a) ltac:(lia)) as La.
  split.
  - unfold signed. destruct (a <? 0); [cbn [append length]|];
      rewrite La; reflexivity.
  - intros He.
    pose proof (padded_rendering_compare (Z.abs a) (Z.abs b)
                  ltac:(lia) ltac:(lia)) as Hcmp.
    destruct (padded_rendering_head (Z.abs a) ltac:(lia)) as (ca & ra & Ea & Hca).
    destruct (padded_rendering_head (Z.abs b) ltac:(lia)) as (cb & rb & Eb & Hcb).
    unfold signed in He.
    destruct (Z.ltb_spec a 0) as [Ha0|Ha0], (Z.ltb_spec b 0) as [Hb0|Hb0].
    + cbn [append] in He. apply String_cons_inj in He as [_ He].
      rewrite He, compare_refl in Hcmp.
      symmetry in Hcmp. apply Z.compare_eq_iff in Hcmp. lia.
    + rewrite Eb in He. cbn [append] in He.
      apply String_cons_inj in He as [Hc _]. subst cb. discriminate.
    + rewrite Ea in He. cbn [append] in He.
      apply String_cons_inj in He as [Hc _]. subst ca. discriminate.
    + rewrite He, compare_refl in Hcmp.
      symmetry in Hcmp. apply Z.compare_eq_iff in Hcmp. lia.
Qed.

Lemma SortableDecBytes_injective_witness :
  length "-000000000000000002.000000000000000000" = 38%nat.
Proof.
  assert (HB : 61 <= 256) by discriminate.
  assert (Ha : Z.abs (-2000000000000000000) < maxSortable) by reflexivity.
  assert (Hk : SortableDecBytes 256 (-2000000000000000000)
               = Return "-000000000000000002.000000000000000000"%string)
    by (vm_compute; reflexivity).
  exact (proj1 (SortableDecBytes_injective 256 (-2000000000000000000)
                  (-2000000000000000000) _ _ HB Ha Ha Hk Hk)).
Defined.

(** ** Wire text, further *)

Local Open Scope string_scope.

Lemma length_substring (n m : nat) (s : string) :
  length (substring n m s) = Nat.min m (length s - n).
Proof.
  revert n m. induction s as [|c s IH]; intros n m.
  - destruct n, m; reflexivity.
  - destruct n as [|n].
    + destruct m as [|m]; [reflexivity|]. cbn [substring length].
      rewrite IH. rewrite !Nat.sub_0_r. reflexivity.
    + cbn [substring length]. rewrite IH. reflexivity.
Qed.

Lemma MarshalText_nonempty (z : Z) : bigtext.MarshalText z <> "".
Proof.
  destruct z as [|p|p]; [discriminate| |discriminate].
  apply (MarshalText_magnitude (Z.pos p)). lia.
Qed.

(** The base-10 parser reads back what [MarshalText] writes. *)
Lemma SetString_MarshalText (z : Z) :
  bigtext.SetString (bigtext.MarshalText z) = Some z.
Proof.
  destruct (Z.lt_ge_cases z 0) as [Hneg|Hpos].
  - destruct z as [|p|p]; try lia.
    destruct (MarshalText_magnitude (Z.pos p) ltac:(lia)) as (Hd & Hne & Hn).
    change (bigtext.MarshalText (Z.neg p))
      with (String "-" (bigtext.MarshalText (Z.pos p))).
    unfold bigtext.SetString. change (Ascii.eqb "-" "-") with true. cbv iota.
    rewrite (scanDigits_allDigits _ Hd Hne), Hn. reflexivity.
  - destruct (MarshalText_magnitude z Hpos) as (Hd & Hne & Hn).
    rewrite (SetString_allDigits _ Hd Hne), Hn. reflexivity.
Qed.

Lemma copy_length (dst src : string) :
  length (fst (copy dst src)) = length dst.
Proof.
  unfold copy. cbn [fst]. rewrite length_append, !length_substring. lia.
Qed.

Lemma copy_fits (dst src : string) :
  (length src <= length dst)%nat ->
  substring 0 (length src) (fst (copy dst src)) = src.
Proof.
  intros H. unfold copy. cbn [fst].
  rewrite Nat.min_r by exact H. rewrite substring_all. apply substring_prefix.
Qed.

Lemma copy_short (dst src : string) :
  (length dst < length src)%nat ->
  fst (copy dst src) = substring 0 (length dst) src.
Proof.
  intros H. unfold copy. cbn [fst].
  rewrite Nat.min_l by lia. rewrite Nat.sub_diag, substring_zero_length.
  apply append_nil_r.
Qed.

(** X17: [MarshalTo] reports [Size] bytes whatever the buffer, and
    leaves its receiver present (an absent one becomes zero, the pointer
    receiver being assigned).  The buffer keeps its length; when it has
    room its first [Size] bytes are the text of [Marshal]; when it is
    too short it receives the front of that text only, and the count
    still is [Size]. *)
Theorem MarshalTo_writes_Marshal (d : Dec) (data : string) :
  written (MarshalTo d data) = Size d /\
  receiverAfter (MarshalTo d data)
    = Some (match d with None => 0%Z | Some i => i end) /\
  length (dataAfter (MarshalTo d data)) = length data /\
  ((Size d <= length data)%nat ->
   substring 0 (Size d) (dataAfter (MarshalTo d data)) = Marshal d) /\
  ((length data < Size d)%nat ->
   dataAfter (MarshalTo d data) = substring 0 (length data) (Marshal d)).
Proof.
  assert (H : MarshalTo d data =
              mkMarshalledTo (Some (match d with None => 0%Z | Some i => i end))
                (fst (copy data (Marshal d))) (length (Marshal d))).
  { unfold MarshalTo, Marshal.
    set (i := match d with None => 0%Z | Some i => i end).
    change (big.Cmp i zeroInt =? 0)%Z with (Equal i zeroInt).
    rewrite Equal_eqb.
    destruct (Z.eqb_spec i zeroInt) as [->|]; reflexivity. }
  rewrite H. cbn [written receiverAfter dataAfter]. unfold Size.
  split; [reflexivity|]. split; [reflexivity|].
  split; [apply copy_length|]. split; [apply copy_fits|apply copy_short].
Qed.

Lemma MarshalTo_writes_Marshal_witness :
  substring 0 2 (dataAfter (MarshalTo (Some 42%Z) "abcde")) = "42" /\
  dataAfter (MarshalTo (Some 4200%Z) "ab") = "42".
Proof.
  destruct (MarshalTo_writes_Marshal (Some 42%Z) "abcde") as (_ & _ & _ & H1 & _).
  destruct (MarshalTo_writes_Marshal (Some 4200%Z) "ab") as (_ & _ & _ & _ & H2).
  split.
  - apply H1. vm_compute. lia.
  - apply H2. vm_compute. lia.
Defined.

Section WireRoundTrip.

Variable maxBitLen : Z.
Variable UnmarshalText : Z -> string -> Z * bool.
Hypothesis UnmarshalText_reads :
  forall i z, UnmarshalText i (bigtext.MarshalText z) = (z, true).

Lemma Unmarshal_Marshal_present (recv : Dec) (d : Z) :
  Unmarshal maxBitLen UnmarshalText recv (Marshal (Some d)) =
    mkUnmarshalled false (Some d)
      (if (big.BitLen d >? maxDecBitLen maxBitLen)%Z
       then Some (ErrWireOutOfRange (big.BitLen d)) else None).
Proof.
  unfold Unmarshal, Marshal.
  rewrite (length_nonzero _ (MarshalText_nonempty d)).
  rewrite UnmarshalText_reads. cbn [negb].
  destruct (big.BitLen d >? maxDecBitLen maxBitLen)%Z; reflexivity.
Qed.

End WireRoundTrip.

(** X18: wire round trip, for a text parser that reads what
    [MarshalText] writes: unmarshalling the bytes of [Marshal] gives the
    value back with no error when it is within the bound, whatever the
    receiver held; a value outside the bound is reported as out of
    range, yet the receiver holds it afterwards; and an absent value,
    marshalled as "0", comes back as zero. *)
Theorem Unmarshal_Marshal_round_trip
        (maxBitLen : Z) (UnmarshalText : Z -> string -> Z * bool)
        (recv : Dec) (d : Z) :
  (forall i z, UnmarshalText i (bigtext.MarshalText z) = (z, true)) ->
  (0 <= maxBitLen)%Z ->
  (withinBound maxBitLen d ->
   Unmarshal maxBitLen UnmarshalText recv (Marshal (Some d))
   = mkUnmarshalled false (Some d) None) /\
  (~ withinBound maxBitLen d ->
   Unmarshal maxBitLen UnmarshalText recv (Marshal (Some d))
   = mkUnmarshalled false (Some d) (Some (ErrWireOutOfRange (big.BitLen d)))) /\
  Unmarshal maxBitLen UnmarshalText recv (Marshal None)
  = mkUnmarshalled false (Some 0%Z) None.
Proof.
  intros Hreads HB. split; [|split].
  - intros Hd. rewrite (Unmarshal_Marshal_present _ _ Hreads).
    unfold withinBound in Hd. rewrite Z.gtb_ltb.
    replace (maxDecBitLen maxBitLen <? big.BitLen d)%Z with false
      by (symmetry; apply Z.ltb_ge; exact Hd).
    reflexivity.
  - intros Hd. rewrite (Unmarshal_Marshal_present _ _ Hreads).
    unfold withinBound in Hd. rewrite Z.gtb_ltb.
    replace (maxDecBitLen maxBitLen <? big.BitLen d)%Z with true
      by (symmetry; apply Z.ltb_lt; lia).
    reflexivity.
  - change (Marshal None) with (Marshal (Some 0%Z)).
    rewrite (Unmarshal_Marshal_present _ _ Hreads).
    change (big.BitLen 0) with 0%Z. rewrite Z.gtb_ltb.
    replace (maxDecBitLen maxBitLen <? 0)%Z with false; [reflexivity|].
    symmetry. apply Z.ltb_ge.
    unfold maxDecBitLen, decimalTruncateBits, DecimalPrecisionBits. lia.
Qed.

Lemma decimalUnmarshalText_reads (i z : Z) :
  decimalUnmarshalText i (bigtext.MarshalText z) = (z, true).
Proof. unfold decimalUnmarshalText. rewrite SetString_MarshalText. reflexivity. Qed.

Lemma Unmarshal_Marshal_round_trip_witness :
  Unmarshal 256 decimalUnmarshalText None (Marshal (Some (-1500000000000000000)%Z))
  = mkUnmarshalled false (Some (-1500000000000000000)%Z) None /\
  receiver (Unmarshal 256 decimalUnmarshalText (Some 1%Z)
              (Marshal (Some (2 ^ 315)%Z)))
  = Some (2 ^ 315)%Z.
Proof.
  assert (HB : (0 <= 256)%Z) by discriminate.
  destruct (Unmarshal_Marshal_round_trip 256 decimalUnmarshalText None
              (-1500000000000000000) decimalUnmarshalText_reads HB)
    as (H1 & _).
  destruct (Unmarshal_Marshal_round_trip 256 decimalUnmarshalText (Some 1%Z)
              (2 ^ 315) decimalUnmarshalText_reads HB)
    as (_ & H2 & _).
  split.
  - apply H1. vm_compute. discriminate.
  - rewrite H2; [reflexivity|]. vm_compute. intros H. apply H. reflexivity.
Defined.

(** ** JSON *)






(** ** Test helpers *)

(** X20: [DecApproxEq] does not depend on the order of the two values;
    when their difference is within the bound its verdict is whether
    the magnitude of the difference is at most the tolerance, and it
    panics with the overflow otherwise; the verdict of [DecEq] is
    whether the two values are equal. *)
Theorem DecApproxEq_verdict (maxBitLen d1 d2 tol : Z) :
  DecApproxEq maxBitLen d1 d2 tol = DecApproxEq maxBitLen d2 d1 tol /\
  (withinBound maxBitLen (d1 - d2) ->
   DecApproxEq maxBitLen d1 d2 tol =
     Return ((Z.abs (d1 - d2) <=? tol)%Z, decimal.String (Some tol),
             decimal.String (Some (Z.abs (d1 - d2)%Z)))) /\
  (~ withinBound maxBitLen (d1 - d2) ->
   DecApproxEq maxBitLen d1 d2 tol = Panics IntOverflow) /\
  fst (fst (DecEq d1 d2)) = (d1 =? d2)%Z.
Proof.
  assert (Hgen : forall a b,
            DecApproxEq maxBitLen a b tol =
            if overflows maxBitLen (a - b) then Panics IntOverflow
            else Return ((Z.abs (a - b) <=? tol)%Z, decimal.String (Some tol),
                         decimal.String (Some (Z.abs (a - b)%Z)))).
  { intros a b. unfold DecApproxEq, Sub, ImmutOp, SubMut, Clone, immut, checked.
    cbn [panicked store]. destruct (overflows maxBitLen (a - b)); [reflexivity|].
    cbn [andThen]. unfold Abs. rewrite LTE_leb. reflexivity. }
  split; [|split; [|split]].
  - rewrite !Hgen. unfold overflows.
    replace (d2 - d1)%Z with (- (d1 - d2))%Z by lia.
    rewrite BitLen_opp, Z.abs_opp. reflexivity.
  - intros H. rewrite Hgen. unfold overflows, withinBound in *.
    rewrite Z.gtb_ltb.
    replace (maxDecBitLen maxBitLen <? big.BitLen (d1 - d2))%Z with false
      by (symmetry; apply Z.ltb_ge; exact H).
    reflexivity.
  - intros H. rewrite Hgen. unfold overflows, withinBound in *.
    rewrite Z.gtb_ltb.
    replace (maxDecBitLen maxBitLen <? big.BitLen (d1 - d2))%Z with true
      by (symmetry; apply Z.ltb_lt; lia).
    reflexivity.
  - unfold DecEq. cbn [fst]. apply Equal_eqb.
Qed.

Lemma DecApproxEq_verdict_witness :
  DecApproxEq 256 10 7 3 =
    Return (true, "0.000000000000000003", "0.000000000000000003") /\
  DecApproxEq 256 (2 ^ 315) (- 2 ^ 315) 0 = Panics IntOverflow.
Proof.
  destruct (DecApproxEq_verdict 256 10 7 3) as (_ & H1 & _).
  destruct (DecApproxEq_verdict 256 (2 ^ 315) (- 2 ^ 315) 0) as (_ & _ & H2 & _).
  split.
  - rewrite H1; [reflexivity|]. vm_compute. discriminate.
  - apply H2. vm_compute. intros H. apply H. reflexivity.
Defined.

(** ** The constructors agree *)

(** X21: parsing a decimal text is constructing with a precision: for
    integer digits [ip] and at most 18 fractional digits [fp], the
    string constructor returns what [NewDecFromBigIntWithPrec] makes of
    the signed number the digits denote and of the count of fractional
    digits, unless that is outside the bound, which the string
    constructor alone checks. *)
Theorem NewDecFromStr_is_NewDecWithPrec
        (maxBitLen : Z) (neg : bool) (ip fp : string) :
  allDigits ip = true -> ip <> "" ->
  allDigits fp = true -> (length fp <= 18)%nat ->
  let v := (if neg then - numeral (ip ++ fp) else numeral (ip ++ fp))%Z in
  exists d,
    NewDecFromBigIntWithPrec v (Z.of_nat (length fp)) = Got d /\
    NewDecFromStr maxBitLen (decimalText neg ip fp) =
      if (big.BitLen d >? maxDecBitLen maxBitLen)%Z
      then Failed (ErrOutOfRange (big.BitLen d))
      else Parsed d.
Proof.
  intros Hip Hne Hfp Hlen v.
  exists (v * 10 ^ (18 - Z.of_nat (length fp)))%Z. split.
  - unfold NewDecFromBigIntWithPrec.
    rewrite precisionMultiplier_table by lia. reflexivity.
  - rewrite NewDecFromStr_decimalText by assumption.
    rewrite <- append_assoc.
    rewrite finish_digits;
      [|rewrite allDigits_append, Hip, Hfp; reflexivity
       |destruct ip; [contradiction|discriminate]].
    cbv zeta.
    replace (Z.of_nat (18 - length fp)) with (18 - Z.of_nat (length fp))%Z by lia.
    unfold v. destruct neg.
    + rewrite Z.mul_opp_l, BitLen_opp. reflexivity.
    + reflexivity.
Qed.

Lemma NewDecFromStr_is_NewDecWithPrec_witness :
  exists d,
    NewDecFromBigIntWithPrec (-15) 1 = Got d /\
    NewDecFromStr 256 "-1.5" =
      if (big.BitLen d >? maxDecBitLen 256)%Z
      then Failed (ErrOutOfRange (big.BitLen d))
      else Parsed d.
Proof.
  exact (NewDecFromStr_is_NewDecWithPrec 256 true "1" "5"
           eq_refl ltac:(discriminate) eq_refl ltac:(simpl; lia)).
Defined.

(** ** Signs *)

Local Open Scope Z_scope.

(** X22: [Neg] undoes itself, [Abs] applied twice is [Abs], a value
    and its negation have one magnitude, which is never negative; and
    [Sub] is [Add] of the negation: both return the same value or both
    panic. *)
Theorem Neg_Abs_laws (maxBitLen d d2 : Z) :
  Neg (Neg d) = d /\
  Abs (Abs d) = Abs d /\
  Abs (Neg d) = Abs d /\
  IsNegative (Abs d) = false /\
  (IsNegative d = false -> Abs d = d) /\
  Sub maxBitLen d d2 = Add maxBitLen d (Neg d2).
Proof.
  unfold Neg, Abs, IsNegative. rewrite !Sign_neg_iff.
  split; [lia|]. split; [lia|]. split; [lia|].
  split; [apply Z.ltb_ge; lia|]. split.
  - intros H. apply Z.ltb_ge in H. lia.
  - unfold Sub, Add, ImmutOp, SubMut, AddMut, Clone.
    replace (d + - d2) with (d - d2) by lia. reflexivity.
Qed.

Lemma Neg_Abs_laws_witness : Abs 5 = 5.
Proof.
  destruct (Neg_Abs_laws 256 5 0) as (_ & _ & _ & _ & H & _).
  apply H. reflexivity.
Defined.

(** ** Root approximation, further *)

Lemma approxRootLoop_panic (maxBitLen : Z) (budget : nat) (d : Z) (root : N)
      (guess delta g : Z) (p : panic) :
  (root <> 0)%N -> (root < 2 ^ 64)%N ->
  approxRootLoop maxBitLen budget d root guess delta = (g, Some p) ->
  p = IntOverflow.
Proof.
  intros H0 H64. revert guess delta.
  induction budget as [|budget IH]; intros guess delta; cbn [approxRootLoop].
  - destruct (GT (Abs delta) SmallestDec); discriminate.
  - destruct (GT (Abs delta) SmallestDec); [|discriminate].
    destruct (approxRootStep maxBitLen d root guess delta)
      as [[g1 d1] [q|]] eqn:Hs.
    + intros [= _ <-].
      exact (approxRootStep_panic maxBitLen _ _ _ _ _ _ _ H0 H64 Hs).
    + apply IH.
Qed.

(** X23: when, within the budget, a turn of the Newton loop leaves
    [delta] at most the smallest unit in magnitude, [ApproxRoot] stops
    there and returns the guess, with the sign of the receiver, and no
    error. *)
Theorem ApproxRoot_converged (maxBitLen d : Z) (root : N) (n : nat)
        (guess delta : Z) :
  entersLoop (Z.abs d) root = true ->
  (n <= maxApproxRootIterations)%nat ->
  turnsFrom maxBitLen n (Z.abs d) root OneDec OneDec = Some (guess, delta) ->
  GT (Abs delta) SmallestDec = false ->
  ApproxRoot maxBitLen d root = (if d <? 0 then - guess else guess, None).
Proof.
  intros Hin Hn Ht Hgt.
  rewrite (ApproxRoot_loop maxBitLen d root Hin).
  rewrite (approxRootLoop_converged maxBitLen (Z.abs d) root n
             maxApproxRootIterations _ _ _ _ Hn Ht Hgt).
  reflexivity.
Qed.

Lemma ApproxRoot_converged_witness :
  ApproxRoot 256 (4 * oneUnit) 2 = (2 * oneUnit, None).
Proof.
  destruct (turnsFrom 256 7 (Z.abs (4 * oneUnit)) 2 OneDec OneDec)
    as [[guess delta]|] eqn:Ht; [|vm_compute in Ht; discriminate].
  rewrite (ApproxRoot_converged 256 (4 * oneUnit) 2 7 guess delta
             eq_refl ltac:(unfold maxApproxRootIterations; lia) Ht
             ltac:(vm_compute in Ht; injection Ht as <- <-; reflexivity)).
  vm_compute in Ht. injection Ht as <- _. reflexivity.
Defined.

(** X24: on a present receiver and a root below 2^64, [ApproxRoot]
    reports no other error than "out of bounds": nothing but the
    overflow check can panic inside the loop. *)
Theorem ApproxRoot_error_kind (maxBitLen d : Z) (root : N) (e : rootError) :
  (root < 2 ^ 64)%N ->
  snd (ApproxRoot maxBitLen d root) = Some e -> e = ErrOutOfBounds.
Proof.
  intros H64.
  assert (Hnn : forall x, snd (approxRootNonNeg maxBitLen x root) = Some e ->
                          e = ErrOutOfBounds).
  { intros x. unfold approxRootNonNeg.
    destruct ((root =? 1)%N || IsZero x || Equal x OneDec); [discriminate|].
    destruct (N.eqb_spec root 0) as [|H0]; [discriminate|].
    destruct (approxRootLoop maxBitLen maxApproxRootIterations x root
                OneDec OneDec) as [g [p|]] eqn:Hl; [|discriminate].
    rewrite (approxRootLoop_panic maxBitLen _ _ _ _ _ _ _ H0 H64 Hl).
    cbn. intros [= <-]. reflexivity. }
  unfold ApproxRoot. destruct (IsNegative d); [|apply Hnn].
  specialize (Hnn (Neg d)).
  destruct (approxRootNonNeg maxBitLen (Neg d) root) as [g err].
  exact Hnn.
Qed.

Lemma ApproxRoot_error_kind_witness :
  snd (ApproxRoot 256 (2 ^ 315 - 1) 3) = Some ErrOutOfBounds.
Proof.
  destruct (snd (ApproxRoot 256 (2 ^ 315 - 1) 3)) as [e|] eqn:E;
    [|vm_compute in E; discriminate].
  rewrite (ApproxRoot_error_kind 256 (2 ^ 315 - 1) 3 e eq_refl E).
  reflexivity.
Defined.

(** ** Values accepted from text *)

(** X25: whatever is accepted from text is within the bound: a value
    returned by the string constructor, the receiver after an
    [Unmarshal] of non-empty bytes that reports no error, and the
    receiver after an [UnmarshalJSON] that reports no error. *)
Theorem accepted_text_within_bound
        (maxBitLen : Z) (UnmarshalText : Z -> string -> Z * bool)
        (jsonUnmarshal : string -> option string)
        (recv : Dec) (text : string) :
  (forall d, NewDecFromStr maxBitLen text = Parsed d ->
             withinBound maxBitLen d) /\
  (text <> EmptyString ->
   err (Unmarshal maxBitLen UnmarshalText recv text) = None ->
   exists d, receiver (Unmarshal maxBitLen UnmarshalText recv text) = Some d /\
             withinBound maxBitLen d) /\
  (snd (UnmarshalJSON maxBitLen jsonUnmarshal recv text) = None ->
   exists d, fst (UnmarshalJSON maxBitLen jsonUnmarshal recv text) = Some d /\
             withinBound maxBitLen d).
Proof.
  split; [|split].
  - intros d. apply NewDecFromStr_withinBound.
  - intros Hne. unfold Unmarshal. rewrite (length_nonzero text Hne).
    destruct (UnmarshalText match recv with
                            | Some i => i
                            | None => 0
                            end text) as [i ok].
    destruct ok; cbn [negb]; [|discriminate].
    rewrite Z.gtb_ltb.
    destruct (Z.ltb_spec (maxDecBitLen maxBitLen) (big.BitLen i));
      [discriminate|].
    intros _. exists i. split; [reflexivity|assumption].
  - unfold UnmarshalJSON. destruct (jsonUnmarshal text) as [t|]; [|discriminate].
    destruct (NewDecFromStr maxBitLen t) as [newDec|e] eqn:Hp; [|discriminate].
    intros _. exists newDec. split; [reflexivity|].
    exact (NewDecFromStr_withinBound maxBitLen t newDec Hp).
Qed.

Lemma accepted_text_within_bound_witness :
  withinBound 256 (-1500000000000000000).
Proof.
  destruct (accepted_text_within_bound 256 decimalUnmarshalText plainUnquote
              None "-1.5"%string) as (H & _).
  apply H. vm_compute. reflexivity.
Defined.
